(** * EYESON / Pattern Factory integration: a shallow embedding

    The development follows the TypeScript sources of the EYESON front end:
    the measurement mapping utilities, the scan store and the Pattern
    Factory client.  For the orchestrator, whose implementation lives
    outside the front end, it follows the behaviour laid down in the
    specification and the transition matrix of the order state machine
    document.

    Definitions come first, module by module; the properties follow, in
    one module of proofs per module of definitions.

    JavaScript numbers are IEEE-754 binary64 values, so they are embedded as
    Rocq's primitive floats: comparisons against literals such as [0.75] and
    [0.9] evaluate here exactly as they do in the browser. *)

From Stdlib Require Import Floats List String Ascii Bool Arith Lia ZArith.
From Stdlib Require Import Sorting.Permutation Sorting.Sorted.
Import ListNotations.

Set Warnings "-inexact-float".

(** ** JavaScript values used by the sources *)

Module JS.

Definition number := float.

(** [!!x] for a number: [0], [-0] and [NaN] are falsy. *)
Definition truthy (x : number) : bool :=
  negb (PrimFloat.is_zero x || PrimFloat.is_nan x).

(** [!!s] for a string: only the empty string is falsy. *)
Definition truthy_string (s : string) : bool :=
  match s with EmptyString => false | _ => true end.

(** A plain object used as a record of keyed slots.  The list is the
    object's own enumeration order ([Object.entries]); a slot holding
    [undefined] is [None]. *)
Definition object (V : Type) := list (string * V).

Section Object.
Context {V : Type}.

(** [o[k]] *)
Fixpoint get (k : string) (o : object V) : option V :=
  match o with
  | [] => None
  | (k', v) :: o' => if String.eqb k k' then Some v else get k o'
  end.

(** [o[k] = v]: an existing key keeps its place, a new key goes last. *)
Fixpoint set (k : string) (v : V) (o : object V) : object V :=
  match o with
  | [] => [(k, v)]
  | (k', v') :: o' =>
      if String.eqb k k' then (k', v) :: o' else (k', v') :: set k v o'
  end.

Definition keys (o : object V) : list string := map fst o.

End Object.

(** What indexing an object literal of strings, [o[k]], can give besides
    [undefined]: a string of its own, or a member it inherits from
    [Object.prototype]: the function [Object] under [constructor],
    [Object.prototype] itself under [__proto__], or one of the methods. *)
Inductive Member :=
| Own (s : string)
| ObjectFunction
| ObjectPrototype
| PrototypeMethod (name : string).

(** The methods every object inherits from [Object.prototype]. *)
Definition prototype_methods : list string :=
  [ "hasOwnProperty"; "isPrototypeOf"; "propertyIsEnumerable"; "toLocaleString";
    "toString"; "valueOf"; "__defineGetter__"; "__defineSetter__";
    "__lookupGetter__"; "__lookupSetter__" ]%string.

(** What the prototype chain gives for a key the literal does not have. *)
Definition inherited (k : string) : option Member :=
  if String.eqb k "constructor" then Some ObjectFunction
  else if String.eqb k "__proto__" then Some ObjectPrototype
  else if existsb (String.eqb k) prototype_methods then Some (PrototypeMethod k)
  else None.

(** [o[k]] for an object literal [o] of strings. *)
Definition lookup (k : string) (o : object string) : option Member :=
  match get k o with
  | Some s => Some (Own s)
  | None => inherited k
  end.

(** [!!m]: objects and functions are truthy. *)
Definition truthy_member (m : Member) : bool :=
  match m with
  | Own s => truthy_string s
  | _ => true
  end.

(** The text of a built-in function, as V8 prints it. *)
Definition native_function (name : string) : string :=
  ("function " ++ name ++ "() { [native code] }")%string.

(** The property key a member stands for when it indexes an object,
    [r[m]]: its conversion to a string. *)
Definition property_key (m : Member) : string :=
  match m with
  | Own s => s
  | ObjectFunction => native_function "Object"
  | ObjectPrototype => "[object Object]"%string
  | PrototypeMethod name => native_function name
  end.

(** [String.prototype.toLowerCase] on the ASCII range. *)
Definition lower_ascii (c : ascii) : ascii :=
  let n := nat_of_ascii c in
  if (65 <=? n)%nat && (n <=? 90)%nat then ascii_of_nat (n + 32) else c.

Definition upper_ascii (c : ascii) : ascii :=
  let n := nat_of_ascii c in
  if (97 <=? n)%nat && (n <=? 122)%nat then ascii_of_nat (n - 32) else c.

Fixpoint toLowerCase (s : string) : string :=
  match s with
  | EmptyString => EmptyString
  | String c s' => String (lower_ascii c) (toLowerCase s')
  end.

(** The regular-expression class [\w]: letters, digits and underscore. *)
Definition is_word (c : ascii) : bool :=
  let n := nat_of_ascii c in
  ((65 <=? n) && (n <=? 90) || (97 <=? n) && (n <=? 122)
   || (48 <=? n) && (n <=? 57) || (n =? 95))%nat.

(** The regular-expression class [\s] on the ASCII range. *)
Definition is_space (c : ascii) : bool :=
  let n := nat_of_ascii c in
  ((n =? 32) || (9 <=? n) && (n <=? 13))%nat.

(** [s.replace(/_/g, ' ')] *)
Fixpoint underscores_to_spaces (s : string) : string :=
  match s with
  | EmptyString => EmptyString
  | String c s' =>
      String (if Ascii.eqb c "_" then " "%char else c) (underscores_to_spaces s')
  end.

(** [s.replace(/\b\w/g, l => l.toUpperCase())]: a word character is
    upper-cased when it starts the string or follows a non-word
    character.  [prev] tells whether the previous character was a word
    character. *)
Fixpoint capitalize_from (prev : bool) (s : string) : string :=
  match s with
  | EmptyString => EmptyString
  | String c s' =>
      String (if is_word c && negb prev then upper_ascii c else c)
             (capitalize_from (is_word c) s')
  end.

Definition capitalize_words (s : string) : string := capitalize_from false s.

(** [s.replace(/\s+/g, '_')]: every maximal run of white space becomes
    one underscore.  [in_run] tells whether the previous character was
    white space. *)
Fixpoint spaces_to_underscore_from (in_run : bool) (s : string) : string :=
  match s with
  | EmptyString => EmptyString
  | String c s' =>
      if is_space c
      then (if in_run then spaces_to_underscore_from true s'
            else String "_" (spaces_to_underscore_from true s'))
      else String c (spaces_to_underscore_from false s')
  end.

Definition spaces_to_underscore (s : string) : string :=
  spaces_to_underscore_from false s.

(** *** Notions used to state the properties *)



End JS.

(** ** utils/measurementMapping.ts *)

Module MeasurementMapping.
Import JS.
Open Scope string_scope.
Open Scope list_scope.

Inductive Grade := P0 | P1.

(** [interface EyesonMeasurement] *)
Record EyesonMeasurement := mkEyeson {
  name : string;
  e_value : number;
  e_unit : string;
  e_confidence : number;
  grade : Grade
}.

(** One slot of [PatternFactoryMeasurements].  The thirteen primary
    slots carry a confidence, the optional secondary slots of the
    interface do not: a missing [confidence] field is [None]. *)
Record PFMeasurement := mkPF {
  value : number;
  unit : string;
  confidence : option number
}.

(** [PatternFactoryMeasurements] as the functions receive it at run time:
    an object whose slots may be absent or [undefined]. *)
Definition PatternFactoryMeasurements := object (option PFMeasurement).

(** [MEASUREMENT_CODE_MAP]: the twenty-six entries of the literal.  It is
    indexed with [lookup], which also finds what the literal inherits. *)
Definition MEASUREMENT_CODE_MAP : object string :=
  [ ("chest_girth", "Cg"); ("waist_girth", "Wg"); ("hip_girth", "Hg");
    ("shoulder_width", "Sh"); ("arm_length", "Al"); ("back_width", "Bw");
    ("neck_girth", "Nc"); ("bicep_girth", "Bi"); ("wrist_girth", "Wc");
    ("inseam", "Il"); ("thigh_girth", "Th"); ("knee_girth", "Kn");
    ("calf_girth", "Ca");
    ("chest", "Cg"); ("waist", "Wg"); ("hip", "Hg"); ("shoulder", "Sh");
    ("sleeve", "Al"); ("back", "Bw"); ("neck", "Nc"); ("bicep", "Bi");
    ("wrist", "Wc"); ("inseam_length", "Il"); ("thigh", "Th");
    ("knee", "Kn"); ("calf", "Ca") ].

(** [MEASUREMENT_DISPLAY_NAMES] *)
Definition MEASUREMENT_DISPLAY_NAMES : object string :=
  [ ("Cg", "Chest Girth"); ("Wg", "Waist Girth"); ("Hg", "Hip Girth");
    ("Sh", "Shoulder Width"); ("Al", "Arm Length"); ("Bw", "Back Width");
    ("Nc", "Neck Circumference"); ("Bi", "Bicep Girth");
    ("Wc", "Wrist Circumference"); ("Il", "Inseam Length");
    ("Th", "Thigh Girth"); ("Kn", "Knee Girth"); ("Ca", "Calf Girth") ].

(** [o[k] || k] for a table of strings, as a string: where the table
    inherits a member under [k], the text of that member. *)
Definition get_or_key (o : object string) (k : string) : string :=
  match lookup k o with
  | Some m => if truthy_member m then property_key m else k
  | None => k
  end.

(** [getMeasurementDisplayName] *)
Definition getMeasurementDisplayName (code : string) : string :=
  get_or_key MEASUREMENT_DISPLAY_NAMES code.

(** [getMeasurementCode] *)
Definition getMeasurementCode (nm : string) : option Member :=
  lookup (spaces_to_underscore (toLowerCase nm)) MEASUREMENT_CODE_MAP.

(** The thirteen codes [transformToPatternFactory] reports on. *)
Definition requiredCodes : list string :=
  ["Cg"; "Wg"; "Hg"; "Sh"; "Al"; "Bw"; "Nc"; "Bi"; "Wc"; "Il"; "Th"; "Kn"; "Ca"].

(** The body of the [for] loop of [transformToPatternFactory]. *)
Definition transform_step (result : PatternFactoryMeasurements)
           (m : EyesonMeasurement) : PatternFactoryMeasurements :=
  match lookup (toLowerCase (name m)) MEASUREMENT_CODE_MAP with
  | Some code =>
      if truthy_member code
      then set (property_key code)
               (Some (mkPF (e_value m) "cm" (Some (e_confidence m)))) result
      else result
  | None => result
  end.

(** [transformToPatternFactory]: the returned object. *)
Definition transformToPatternFactory (eyesonMeasurements : list EyesonMeasurement)
  : PatternFactoryMeasurements :=
  fold_left transform_step eyesonMeasurements [].



(** The [reduce] of [transformToEyeson]: display name per code, the last
    name listed for a code winning. *)
Definition codeToNameMap : object string :=
  fold_left
    (fun acc '(nm, code) => set code (capitalize_words (underscores_to_spaces nm)) acc)
    MEASUREMENT_CODE_MAP [].

(** [data.confidence || 0.9] *)
Definition confidence_or_default (c : option number) : number :=
  match c with
  | Some x => if truthy x then x else 0.9%float
  | None => 0.9%float
  end.

(** [data.confidence && data.confidence >= 0.9 ? 'P0' : 'P1'] *)
Definition grade_of_confidence (c : option number) : Grade :=
  match c with
  | Some x => if truthy x && (0.9 <=? x)%float then P0 else P1
  | None => P1
  end.

(** The body of the [for] loop of [transformToEyeson]; [typeof data.value
    === 'number'] holds of every defined slot. *)
Definition eyeson_of_slot (entry : string * option PFMeasurement)
  : list EyesonMeasurement :=
  match entry with
  | (code, Some data) =>
      [ mkEyeson (get_or_key codeToNameMap code)
                 (value data)
                 (if truthy_string (unit data) then unit data else "cm")
                 (confidence_or_default (confidence data))
                 (grade_of_confidence (confidence data)) ]
  | (_, None) => []
  end.

(** [transformToEyeson] *)
Definition transformToEyeson (pfMeasurements : PatternFactoryMeasurements)
  : list EyesonMeasurement :=
  flat_map eyeson_of_slot pfMeasurements.

(** The messages of [validateMeasurements].  The template strings are kept
    structured: the display name that is interpolated, and for the
    low-confidence warning the confidence whose rounded percentage is
    printed. *)
Inductive message :=
| MissingRequired (display : string)
| LowConfidence (display : string) (c : number)
| ChestNotLargerThanWaist
| HipNotLargerThanWaist.

Record ValidationResult := mkResult {
  valid : bool;
  errors : list message;
  warnings : list message
}.

Definition primaryCodes : list string := ["Cg"; "Wg"; "Hg"; "Sh"; "Al"; "Nc"].

(** [!measurement || !measurement.value] *)
Definition missing_or_zero (measurements : PatternFactoryMeasurements)
           (code : string) : bool :=
  match get code measurements with
  | Some (Some m) => negb (truthy (value m))
  | _ => true
  end.

(** First loop: one error per primary code that is missing. *)
Definition primary_errors (measurements : PatternFactoryMeasurements) : list message :=
  map (fun code => MissingRequired (getMeasurementDisplayName code))
      (filter (missing_or_zero measurements) primaryCodes).

(** [data && data.confidence < 0.75] *)
Definition low_confidence (data : option PFMeasurement) : option number :=
  match data with
  | Some d =>
      match confidence d with
      | Some c => if (c <? 0.75)%float then Some c else None
      | None => None
      end
  | None => None
  end.

(** Second loop: one warning per slot of low confidence. *)
Definition confidence_warnings (measurements : PatternFactoryMeasurements)
  : list message :=
  flat_map
    (fun '(code, data) =>
       match low_confidence data with
       | Some c => [LowConfidence (getMeasurementDisplayName code) c]
       | None => []
       end)
    measurements.

(** [measurements.X?.value] *)
Definition value_of (measurements : PatternFactoryMeasurements) (code : string)
  : option number :=
  match get code measurements with
  | Some (Some m) => Some (value m)
  | _ => None
  end.

(** [a && b && a <= b] *)
Definition not_larger (a b : option number) : bool :=
  match a, b with
  | Some x, Some y => truthy x && truthy y && (x <=? y)%float
  | _, _ => false
  end.

(** Physical plausibility checks. *)
Definition ratio_warnings (measurements : PatternFactoryMeasurements) : list message :=
  let chest := value_of measurements "Cg" in
  let waist := value_of measurements "Wg" in
  let hip := value_of measurements "Hg" in
  ((if not_larger chest waist then [ChestNotLargerThanWaist] else [])
   ++ (if not_larger hip waist then [HipNotLargerThanWaist] else []))%list.

(** [validateMeasurements] *)
Definition validateMeasurements (measurements : PatternFactoryMeasurements)
  : ValidationResult :=
  let errors := primary_errors measurements in
  let warnings :=
    (confidence_warnings measurements ++ ratio_warnings measurements)%list in
  mkResult (match errors with [] => true | _ => false end) errors warnings.

(** [DEFAULT_MEASUREMENTS] *)
Definition DEFAULT_MEASUREMENTS : PatternFactoryMeasurements :=
  [ ("Cg", Some (mkPF 102.5%float "cm" (Some 0.95%float)));
    ("Wg", Some (mkPF 88.0%float "cm" (Some 0.92%float)));
    ("Hg", Some (mkPF 98.5%float "cm" (Some 0.94%float)));
    ("Sh", Some (mkPF 45.2%float "cm" (Some 0.94%float)));
    ("Al", Some (mkPF 64.8%float "cm" (Some 0.88%float)));
    ("Bw", Some (mkPF 38.5%float "cm" (Some 0.81%float)));
    ("Nc", Some (mkPF 39.4%float "cm" (Some 0.93%float)));
    ("Bi", Some (mkPF 32.1%float "cm" (Some 0.85%float)));
    ("Wc", Some (mkPF 17.8%float "cm" (Some 0.87%float)));
    ("Il", Some (mkPF 82.4%float "cm" (Some 0.86%float)));
    ("Th", Some (mkPF 58.3%float "cm" (Some 0.84%float)));
    ("Kn", Some (mkPF 38.9%float "cm" (Some 0.83%float)));
    ("Ca", Some (mkPF 37.2%float "cm" (Some 0.82%float))) ].

(** *** Notions used to state the properties *)



(** Rewriting every defined slot of a measurement set, the keys kept. *)
Definition map_slots (f : string -> PFMeasurement -> PFMeasurement)
           (ms : PatternFactoryMeasurements) : PatternFactoryMeasurements :=
  map (fun e => (fst e, option_map (f (fst e)) (snd e))) ms.

(** The same set with other confidences. *)
Definition with_confidence (g : string -> option number -> option number) :=
  map_slots (fun k d => mkPF (value d) (unit d) (g k (confidence d))).

(** The same set with other values. *)
Definition with_value (g : string -> number -> number) :=
  map_slots (fun k d => mkPF (g k (value d)) (unit d) (confidence d)).

(** The same set without the slot [k]. *)
Definition without (k : string) (ms : PatternFactoryMeasurements)
  : PatternFactoryMeasurements :=
  filter (fun e => negb (String.eqb k (fst e))) ms.

(** The default measurements, every slot at confidence 0.95. *)
Definition confident_scan : PatternFactoryMeasurements :=
  with_confidence (fun _ _ => Some 0.95%float) DEFAULT_MEASUREMENTS.

(** A chest girth of 102.5 cm at confidence [c]. *)
Definition chest (c : number) : option PFMeasurement :=
  Some (mkPF 102.5%float "cm" (Some c)).

(** A waist girth of [v] cm at confidence 0.95. *)
Definition waist (v : number) : option PFMeasurement :=
  Some (mkPF v "cm" (Some 0.95%float)).

(** Every non-zero waist girth becomes 250 cm. *)
Definition waist_to_250 (k : string) (v : number) : number :=
  if String.eqb k "Wg" && truthy v then 250%float else v.

(** One of the two plausibility warnings. *)
Definition plausibility (w : message) : bool :=
  match w with
  | ChestNotLargerThanWaist | HipNotLargerThanWaist => true
  | _ => false
  end.

(** The default measurements with a secondary slot, the front waist
    length. *)
Definition with_front_waist_length : PatternFactoryMeasurements :=
  DEFAULT_MEASUREMENTS ++ [("front_waist_length", Some (mkPF 42%float "cm" None))].

(** The defined slots of a measurement set, in order. *)
Definition defined_slots (pf : PatternFactoryMeasurements) : list PFMeasurement :=
  flat_map (fun e => match snd e with Some d => [d] | None => [] end) pf.



(** The codes whose display name [transformToPatternFactory] files back
    under the same code: all of the thirteen but the inseam. *)
Definition returning_codes : list string :=
  ["Cg"; "Wg"; "Hg"; "Sh"; "Al"; "Bw"; "Nc"; "Bi"; "Wc"; "Th"; "Kn"; "Ca"].

(** A slot as [transformToPatternFactory] writes it, with a confidence
    that is neither zero nor NaN. *)
Definition plain_slot (slot : option PFMeasurement) : Prop :=
  exists v c, slot = Some (mkPF v "cm" (Some c)) /\ truthy c = true.

End MeasurementMapping.

(** ** The order state machine

    The engine that applies transitions belongs to the Pattern Factory back
    end and is not among the sources; it is modelled from the
    specification.  The states and the transition matrix are those of the
    order state machine document. *)

Module Orchestrator.
Open Scope string_scope.
Open Scope list_scope.

(** The states S01 to S22 and the two substates S04a and S06a that the
    transition matrix mentions. *)
Inductive State :=
| ORDER_CREATED      (* S01 *)
| RECEIVED           (* S02 *)
| SCAN_RECEIVED      (* S03 *)
| PROCESSING         (* S04 *)
| VALIDATION         (* S04a *)
| PATTERN_READY      (* S05 *)
| CUTTING            (* S06 *)
| QUEUE_WAIT         (* S06a *)
| PATTERN_CUT        (* S07 *)
| STAGING            (* S08 *)
| QA                 (* S09 *)
| STAGING2           (* S10 *)
| SEWING             (* S11 *)
| ASSEMBLY           (* S12 *)
| FINISHING          (* S13 *)
| READY_FOR_PICKUP   (* S14 *)
| PICKED_UP          (* S15 *)
| SHIPPING           (* S16 *)
| DELIVERED          (* S17 *)
| ALTERATIONS        (* S18 *)
| COMPLETED          (* S19 *)
| CANCELLED          (* S20 *)
| REFUND_PROCESSING  (* S21 *)
| CLOSED.            (* S22 *)

Definition State_eq_dec (a b : State) : {a = b} + {a <> b}.
Proof. decide equality. Defined.

Definition State_eqb (a b : State) : bool :=
  if State_eq_dec a b then true else false.

(** One row of the transition matrix: From, To, Trigger. *)
Record Row := mkRow { row_from : State; row_to : State; row_trigger : string }.

(** The transition matrix, row by row. *)
Definition transition_matrix : list Row :=
  [ mkRow ORDER_CREATED RECEIVED "POST /orders";
    mkRow RECEIVED SCAN_RECEIVED "EYESON Scan";
    mkRow RECEIVED PROCESSING "Manual Entry";
    mkRow SCAN_RECEIVED PROCESSING "Validation Pass";
    mkRow PROCESSING VALIDATION "Start Validation";
    mkRow VALIDATION PATTERN_READY "Validation OK";
    mkRow VALIDATION PROCESSING "Validation Fail";
    mkRow PATTERN_READY CUTTING "Submit to Queue";
    mkRow CUTTING QUEUE_WAIT "Queue Full";
    mkRow QUEUE_WAIT CUTTING "Retry";
    mkRow QUEUE_WAIT PATTERN_CUT "Cutter Ready";
    mkRow CUTTING PATTERN_CUT "Direct Cut";
    mkRow PATTERN_CUT STAGING "Fabric Ready";
    mkRow STAGING QA "QA Scheduled";
    mkRow QA STAGING2 "QA Pass";
    mkRow QA SEWING "QA Fail";
    mkRow STAGING2 SEWING "Start Sewing";
    mkRow SEWING ASSEMBLY "Assembly";
    mkRow ASSEMBLY FINISHING "Finishing";
    mkRow FINISHING READY_FOR_PICKUP "Pressed";
    mkRow READY_FOR_PICKUP PICKED_UP "Pickup";
    mkRow READY_FOR_PICKUP SHIPPING "Ship";
    mkRow READY_FOR_PICKUP ALTERATIONS "Alterations";
    mkRow SHIPPING DELIVERED "Delivered";
    mkRow ALTERATIONS COMPLETED "Complete";
    mkRow READY_FOR_PICKUP CANCELLED "Cancel";
    mkRow CANCELLED REFUND_PROCESSING "Refund";
    mkRow REFUND_PROCESSING CLOSED "Closed" ].

(** The state an event leads to from a state, when the matrix has a row
    for it. *)
Definition next_state (s : State) (event : string) : option State :=
  option_map row_to
    (find (fun r => State_eqb (row_from r) s && String.eqb (row_trigger r) event)
          transition_matrix).

(** [(a, b)] is an edge of the state graph. *)
Definition edge (a b : State) : bool :=
  existsb (fun r => State_eqb (row_from r) a && State_eqb (row_to r) b)
          transition_matrix.

Definition initial_state : State := ORDER_CREATED.

(** Modelled from the spec: the [StateTransitionRecord] of the data model,
    [{order_id, from_state, to_state, trigger, timestamp, metadata}].  The
    metadata is the payload the transition was called with. *)
Record StateTransitionRecord := mkRecord {
  order_id : string;
  from_state : State;
  to_state : State;
  trigger : string;
  timestamp : nat;
  metadata : string
}.

(** Modelled from the spec: the state of the engine, which is not among
    the sources: the store of orders keyed by [order_id] with their current
    state, the append-only event log, the orders that are in the
    manual-review sub-state, the count of failed validations per order
    ([retry_count]), and the configured bound on validation attempts. *)
Record Engine := mkEngine {
  orders : list (string * State);
  event_log : list StateTransitionRecord;
  manual_review : list string;
  retry_count : list (string * nat);
  validation_attempts : nat
}.

(** Modelled from the spec: an engine with no order, configured with a
    bound on validation attempts; the default bound is 3. *)
Definition configured (attempts : nat) : Engine := mkEngine [] [] [] [] attempts.

Definition empty_engine : Engine := configured 3.

(** Modelled from the spec: the errors of [transition].  With calls taken
    one at a time, [ConcurrentModification] is never returned here. *)
Inductive TransitionError :=
| IllegalTransition
| OrderNotFound
| ConcurrentModification.

Fixpoint order_state (os : list (string * State)) (id : string) : option State :=
  match os with
  | [] => None
  | (id', s) :: os' => if String.eqb id id' then Some s else order_state os' id
  end.

Fixpoint set_order_state (os : list (string * State)) (id : string) (s : State)
  : list (string * State) :=
  match os with
  | [] => []
  | (id', s') :: os' =>
      if String.eqb id id' then (id', s) :: os'
      else (id', s') :: set_order_state os' id s
  end.

(** Modelled from the spec: the order is in the manual-review sub-state. *)
Definition in_review (ids : list string) (id : string) : bool :=
  existsb (String.eqb id) ids.

Definition set_review (ids : list string) (id : string) (b : bool) : list string :=
  let others := filter (fun i => negb (String.eqb id i)) ids in
  if b then id :: others else others.

(** Modelled from the spec: the [retry_count] of the order for failed
    validations. *)
Definition failed_validations (counts : list (string * nat)) (id : string) : nat :=
  match find (fun p => String.eqb id (fst p)) counts with
  | Some p => snd p
  | None => 0
  end.

Definition set_failed_validations (counts : list (string * nat)) (id : string) (n : nat)
  : list (string * nat) :=
  (id, n) :: filter (fun p => negb (String.eqb id (fst p))) counts.

(** Modelled from the spec: the transition history of one order, the
    records of the event log that carry its id, oldest first. *)
Definition history (e : Engine) (id : string) : list StateTransitionRecord :=
  filter (fun r => String.eqb (order_id r) id) (event_log e).

(** Modelled from the spec: an order is created on submission, in the
    initial state, with no history; an id already in use is left alone. *)
Definition create_order (e : Engine) (id : string) : Engine :=
  match order_state (orders e) id with
  | Some _ => e
  | None =>
      mkEngine (orders e ++ [(id, initial_state)]) (event_log e)
               (manual_review e) (retry_count e) (validation_attempts e)
  end.

(** Modelled from the spec: the [(order_id, event)] pair has already
    succeeded when it is what the latest record of the order's history
    tells. *)
Definition already_applied (e : Engine) (id : string) (event : string) : bool :=
  match last (map Some (history e id)) None with
  | Some r => String.eqb (trigger r) event
  | None => false
  end.

(** Modelled from the spec: the states an order can be cancelled from,
    the pre-terminal ones.  The lifecycle of the data model ends in
    cancelled, closed, completed, delivered or picked up; an order whose
    refund is being processed has been cancelled already. *)
Definition pre_terminal (s : State) : bool :=
  match s with
  | PICKED_UP | DELIVERED | COMPLETED | CANCELLED | REFUND_PROCESSING | CLOSED => false
  | _ => true
  end.

(** Modelled from the spec: where the SLA monitor's timeout leads from a
    state configured as timeout-transitionable.  The one the documents
    name is [RECEIVED], with no scan after 24 hours: auto-cancel. *)
Definition timeout_target (s : State) : option State :=
  match s with
  | RECEIVED => Some CANCELLED
  | _ => None
  end.

(** Modelled from the spec: the states in which the order has a job in
    the work queue, whose dead letter is escalated. *)
Definition awaits_cutter (s : State) : bool :=
  match s with
  | CUTTING | QUEUE_WAIT => true
  | _ => false
  end.

(** Modelled from the spec: what an event does to an order in state [s],
    in manual review or not, with [failed] validations behind it: the
    state it moves to, whether it is in manual review afterwards, and
    the failed validations afterwards; [None] when the event is not
    defined there.

    - [Cancel] leads to [CANCELLED] from any pre-terminal state.
    - An order in manual review takes nothing else than the
      human-triggered [MANUAL_INTERVENTION], which ends the review where
      the order stands and clears the count.
    - [SLA_TIMEOUT] is the timeout transition of the SLA monitor.
    - [DEAD_LETTER], the failure event of the work queue, puts the order
      in manual review where it stands.
    - Any other event follows its row of the transition matrix; a failed
      validation is counted, and the one that exhausts the attempts puts
      the order, back in [PROCESSING], in manual review. *)
Definition apply_event (attempts : nat) (s : State) (review : bool) (failed : nat)
           (event : string) : option (State * bool * nat) :=
  if String.eqb event "Cancel" then
    if pre_terminal s then Some (CANCELLED, false, failed) else None
  else if review then
    if String.eqb event "MANUAL_INTERVENTION" then Some (s, false, 0) else None
  else if String.eqb event "SLA_TIMEOUT" then
    match timeout_target s with
    | Some s' => Some (s', false, failed)
    | None => None
    end
  else if String.eqb event "DEAD_LETTER" then
    if awaits_cutter s then Some (s, true, failed) else None
  else
    match next_state s event with
    | Some s' =>
        if State_eqb s VALIDATION && String.eqb event "Validation Fail"
        then Some (s', (attempts <=? S failed)%nat, S failed)
        else Some (s', false, failed)
    | None => None
    end.

(** Modelled from the spec: [transition(order_id, event, payload)] of
    the state machine engine, whose implementation is not among the
    sources.  It fails with [OrderNotFound] for an unknown order and with
    [IllegalTransition] when the event is not defined for the order's
    current state; re-applying the pair that has just succeeded is a
    no-op that returns the current state; otherwise the order moves and
    one record is appended to the event log.  Calls are taken one at a
    time, as the per-order lock of the specification makes them.  The
    validation gate and the work queue are components of their own: the
    verdict of the one and the completion or dead letter of the other
    reach the engine as events. *)
Definition transition (e : Engine) (id event payload : string) (now : nat)
  : (TransitionError + State) * Engine :=
  match order_state (orders e) id with
  | None => (inl OrderNotFound, e)
  | Some s =>
      if already_applied e id event then (inr s, e)
      else
        match apply_event (validation_attempts e) s
                          (in_review (manual_review e) id)
                          (failed_validations (retry_count e) id) event with
        | None => (inl IllegalTransition, e)
        | Some (s', review, failed) =>
            (inr s',
             mkEngine (set_order_state (orders e) id s')
                      (event_log e ++ [mkRecord id s s' event now payload])
                      (set_review (manual_review e) id review)
                      (set_failed_validations (retry_count e) id failed)
                      (validation_attempts e))
        end
  end.

(** What callers ask of the engine. *)
Inductive Command :=
| Create (id : string)
| Transition (id event payload : string) (now : nat).

Definition exec (e : Engine) (c : Command) : Engine :=
  match c with
  | Create id => create_order e id
  | Transition id event payload now => snd (transition e id event payload now)
  end.

(** The engine after a sequence of calls, started empty with a bound on
    validation attempts. *)
Definition run_with (attempts : nat) (cs : list Command) : Engine :=
  fold_left exec cs (configured attempts).

Definition run (cs : list Command) : Engine := fold_left exec cs empty_engine.

(** *** Notions used to state the properties *)

(** The states an order can be in manual review in. *)
Definition reviewable (s : State) : bool :=
  match s with
  | PROCESSING | CUTTING | QUEUE_WAIT => true
  | _ => false
  end.

(** A record as the engine writes them: a cancellation, the end of a
    manual review, a timeout, a dead letter, or a row of the transition
    matrix under its trigger. *)
Definition legal_record (r : StateTransitionRecord) : bool :=
  let a := from_state r in
  let b := to_state r in
  if String.eqb (trigger r) "Cancel" then pre_terminal a && State_eqb b CANCELLED
  else if String.eqb (trigger r) "MANUAL_INTERVENTION" then reviewable a && State_eqb b a
  else if String.eqb (trigger r) "SLA_TIMEOUT" then
    State_eqb a RECEIVED && State_eqb b CANCELLED
  else if String.eqb (trigger r) "DEAD_LETTER" then awaits_cutter a && State_eqb b a
  else
    match next_state a (trigger r) with
    | Some s' => State_eqb b s'
    | None => false
    end.

(** A history is a legal walk from [s]: its first record starts at [s],
    each record is one the engine writes, and each record starts where
    the previous one ended. *)
Fixpoint legal_walk (s : State) (h : list StateTransitionRecord) : bool :=
  match h with
  | [] => true
  | r :: h' =>
      State_eqb (from_state r) s
      && legal_record r
      && legal_walk (to_state r) h'
  end.

(** Where a walk from [s] ends. *)
Fixpoint walk_end (s : State) (h : list StateTransitionRecord) : State :=
  match h with
  | [] => s
  | r :: h' => walk_end (to_state r) h'
  end.

(** Every order's history is a legal walk from the initial state that
    ends in the order's current state, an order in manual review is in a
    state where reviews start, and nothing is on record for an unknown
    order, which is not in manual review either. *)
Definition consistent (e : Engine) : Prop :=
  forall id,
    match order_state (orders e) id with
    | Some s => legal_walk initial_state (history e id) = true
                /\ walk_end initial_state (history e id) = s
                /\ (in_review (manual_review e) id = true -> reviewable s = true)
    | None => history e id = [] /\ in_review (manual_review e) id = false
    end.

(** The calls of one order: its creation and its transitions under the
    given events, with empty payloads, at successive times. *)
Fixpoint calls_from (id : string) (now : nat) (events : list string) : list Command :=
  match events with
  | [] => []
  | event :: events' => Transition id event "" now :: calls_from id (S now) events'
  end.

Definition order_with (id : string) (events : list string) : Engine :=
  run (Create id :: calls_from id 1 events).

(** The events of an order entered by hand whose validation fails three
    times. *)
Definition validation_fails : list string :=
  [ "POST /orders"; "Manual Entry";
    "Start Validation"; "Validation Fail";
    "Start Validation"; "Validation Fail";
    "Start Validation"; "Validation Fail" ].

(** The events of an order entered by hand up to its submission to the
    work queue. *)
Definition to_cutting : list string :=
  [ "POST /orders"; "Manual Entry"; "Start Validation"; "Validation OK";
    "Submit to Queue" ].


(** The states a row of the matrix leads to from [s]. *)
Definition successors (s : State) : list State :=
  map row_to (filter (fun r => State_eqb (row_from r) s) transition_matrix).

(** No row of the matrix leaves [s]. *)
Definition terminal (s : State) : bool :=
  match successors s with [] => true | _ => false end.

(** A walk along rows of the matrix. *)
Inductive path : State -> State -> Prop :=
| path_here s : path s s
| path_step s s' t : edge s s' = true -> path s' t -> path s t.

(** The search for a walk of at most [n] rows. *)
Fixpoint reaches (n : nat) (s t : State) : bool :=
  State_eqb s t
  || match n with
     | 0 => false
     | S n' => existsb (fun s' => reaches n' s' t) (successors s)
     end.

End Orchestrator.

(** ** The resilient work queue

    The queue of cutter jobs, the write-ahead-logged queue of the Pattern
    Factory back end, is not among the sources either; it is modelled from
    the specification. *)

Module WorkQueue.
Open Scope string_scope.
Open Scope list_scope.
Open Scope nat_scope.

(** Modelled from the spec: the priorities of the queue, which is not
    among the sources. *)
Inductive Priority := rush | high | normal | low.

(** Modelled from the spec: strict priority, [rush > high > normal > low];
    a smaller rank is served first. *)
Definition rank (p : Priority) : nat :=
  match p with rush => 0 | high => 1 | normal => 2 | low => 3 end.

(** Modelled from the spec: the status of a job. *)
Inductive Status := pending | in_flight | done | dead_letter.

(** Modelled from the spec: the [QueueJob] of the data model.  The
    enqueue sequence number stands for [enqueued_at]; job ids are drawn
    from the same sequence. *)
Record QueueJob := mkJob {
  job_id : nat;
  order_id : string;
  payload : string;
  priority : Priority;
  attempt_count : nat;
  status : Status;
  enqueued_at : nat
}.

(** Modelled from the spec: the operations a write-ahead log entry
    records. *)
Inductive Operation :=
| ENQUEUE (job : QueueJob)
| DEQUEUE
| ACK
| RETRY (attempt : nat)
| DEAD_LETTER.

(** Modelled from the spec: the [WALEntry] of the data model, without the
    payload checksum, which replay never reads. *)
Record WALEntry := mkEntry {
  sequence_no : nat;
  entry_job : nat;
  operation : Operation
}.

Definition with_status (st : Status) (j : QueueJob) : QueueJob :=
  mkJob (job_id j) (order_id j) (payload j) (priority j)
        (attempt_count j) st (enqueued_at j).

Definition with_attempts (n : nat) (j : QueueJob) : QueueJob :=
  mkJob (job_id j) (order_id j) (payload j) (priority j)
        n (status j) (enqueued_at j).

(** The in-memory job table, in enqueue order. *)
Definition update (id : nat) (f : QueueJob -> QueueJob) (js : list QueueJob)
  : list QueueJob :=
  map (fun j => if job_id j =? id then f j else j) js.

Fixpoint find_job (id : nat) (js : list QueueJob) : option QueueJob :=
  match js with
  | [] => None
  | j :: js' => if job_id j =? id then Some j else find_job id js'
  end.

(** Modelled from the spec: the effect of one logged operation on the
    in-memory structures.  It is what the queue does after writing the
    entry, and what replay does on reading it. *)
Definition apply_entry (js : list QueueJob) (e : WALEntry) : list QueueJob :=
  match operation e with
  | ENQUEUE job => js ++ [job]
  | DEQUEUE =>
      update (entry_job e)
             (fun j => with_status in_flight (with_attempts (S (attempt_count j)) j)) js
  | ACK => update (entry_job e) (with_status done) js
  | RETRY n =>
      update (entry_job e) (fun j => with_status pending (with_attempts n j)) js
  | DEAD_LETTER => update (entry_job e) (with_status dead_letter) js
  end.

(** Modelled from the spec: the state of the queue, which is not among
    the sources: its durable write-ahead log and the in-memory job table
    that is rebuilt from it. *)
Record Queue := mkQueue {
  wal : list WALEntry;
  jobs : list QueueJob
}.

Definition empty_queue : Queue := mkQueue [] [].

(** Write-before-effect: the entry takes the next sequence number and
    goes to the log, then it is applied to the job table. *)
Definition record (q : Queue) (id : nat) (op : Operation) : Queue :=
  let e := mkEntry (List.length (wal q)) id op in
  mkQueue (wal q ++ [e]) (apply_entry (jobs q) e).

(** Modelled from the spec: [enqueue(order_id, payload, priority)],
    returning the job id. *)
Definition enqueue (q : Queue) (oid pl : string) (p : Priority) : nat * Queue :=
  let seq := List.length (wal q) in
  (seq, record q seq (ENQUEUE (mkJob seq oid pl p 0 pending seq))).

Definition is_pending (j : QueueJob) : bool :=
  match status j with pending => true | _ => false end.

Definition is_in_flight (j : QueueJob) : bool :=
  match status j with in_flight => true | _ => false end.

(** Modelled from the spec: the ordering of the queue.  [a] is served
    before [b]: higher priority first, and within one priority the smaller
    enqueue sequence number first. *)
Definition before (a b : QueueJob) : bool :=
  (rank (priority a) <? rank (priority b))
  || ((rank (priority a) =? rank (priority b))
      && (enqueued_at a <? enqueued_at b)).

(** One step of the scan for the pending job to serve. *)
Definition pick (best : option QueueJob) (j : QueueJob) : option QueueJob :=
  if is_pending j
  then match best with
       | None => Some j
       | Some b => if before j b then Some j else Some b
       end
  else best.

Definition next_job (js : list QueueJob) : option QueueJob :=
  fold_left pick js None.

(** Modelled from the spec: a worker takes the highest-priority pending
    job; the dequeue is logged and the job marked in flight. *)
Definition dequeue (q : Queue) : option QueueJob * Queue :=
  match next_job (jobs q) with
  | None => (None, q)
  | Some j => (Some j, record q (job_id j) DEQUEUE)
  end.

(** Modelled from the spec: delivery succeeded. *)
Definition ack (q : Queue) (id : nat) : Queue :=
  match find_job id (jobs q) with
  | Some j => if is_in_flight j then record q id ACK else q
  | None => q
  end.

(** Modelled from the spec: delivery failed.  The job is retried until
    the configured number of attempts is used up, then dead-lettered. *)
Definition fail (max_attempts : nat) (q : Queue) (id : nat) : Queue :=
  match find_job id (jobs q) with
  | Some j =>
      if is_in_flight j
      then if attempt_count j <? max_attempts
           then record q id (RETRY (attempt_count j))
           else record q id DEAD_LETTER
      else q
  | None => q
  end.

(** Modelled from the spec: replaying a log in sequence order, oldest
    entry first, onto a job table. *)
Definition replay (w : list WALEntry) (js : list QueueJob) : list QueueJob :=
  fold_left apply_entry w js.





(** A log is well formed when every job is enqueued once, under its own
    id and as a pending job, and nothing is logged for a job before its
    enqueue.  [seen] lists the ids enqueued so far. *)
Fixpoint wal_ok_from (seen : list nat) (w : list WALEntry) : bool :=
  match w with
  | [] => true
  | e :: w' =>
      match operation e with
      | ENQUEUE job =>
          (job_id job =? entry_job e)
          && is_pending job
          && negb (existsb (Nat.eqb (entry_job e)) seen)
          && wal_ok_from (entry_job e :: seen) w'
      | _ => existsb (Nat.eqb (entry_job e)) seen && wal_ok_from seen w'
      end
  end.

Definition wal_ok (w : list WALEntry) : bool := wal_ok_from [] w.

(** What workers and producers ask of the queue. *)
Inductive Command :=
| Enqueue (oid pl : string) (p : Priority)
| Dequeue
| Ack (id : nat)
| Fail (id : nat).

Definition exec (max_attempts : nat) (q : Queue) (c : Command) : Queue :=
  match c with
  | Enqueue oid pl p => snd (enqueue q oid pl p)
  | Dequeue => snd (dequeue q)
  | Ack id => ack q id
  | Fail id => fail max_attempts q id
  end.

Definition run (max_attempts : nat) (cs : list Command) : Queue :=
  fold_left (exec max_attempts) cs empty_queue.

(** Dequeuing until the queue has no pending job, at most [fuel] times. *)
Fixpoint drain (fuel : nat) (q : Queue) : list QueueJob :=
  match fuel with
  | 0 => []
  | S n =>
      match dequeue q with
      | (Some j, q') => j :: drain n q'
      | (None, _) => []
      end
  end.

(** Enqueuing jobs of the given priorities, in order. *)
Definition enqueue_all (ps : list Priority) : Queue :=
  fold_left (fun q p => snd (enqueue q "" "" p)) ps empty_queue.

(** *** Notions used to state the properties *)

(** The job table has a job of this id. *)
Definition known (id : nat) (js : list QueueJob) : bool :=
  match find_job id js with Some _ => true | None => false end.


(** Every operation but [ENQUEUE] rewrites the job it names, id kept. *)
Definition effect (op : Operation) (j : QueueJob) : QueueJob :=
  match op with
  | ENQUEUE _ => j
  | DEQUEUE => with_status in_flight (with_attempts (S (attempt_count j)) j)
  | ACK => with_status done j
  | RETRY n => with_status pending (with_attempts n j)
  | DEAD_LETTER => with_status dead_letter j
  end.

(** The ids enqueued by a log, on top of those seen before it. *)
Definition seen_after (seen : list nat) (w : list WALEntry) : list nat :=
  fold_left
    (fun acc e => match operation e with ENQUEUE _ => entry_job e :: acc | _ => acc end)
    w seen.

(** What holds of every queue that the operations can produce: the job
    table is the replay of the log, the log is well formed and its job ids
    are smaller than its length, and the jobs have distinct ids that are
    their enqueue sequence numbers. *)
Record queue_ok (q : Queue) : Prop := mk_queue_ok {
  ok_jobs : jobs q = replay (wal q) [];
  ok_wal : wal_ok (wal q) = true;
  ok_ids : forall e, In e (wal q) -> entry_job e < List.length (wal q);
  ok_nodup : NoDup (map job_id (jobs q));
  ok_keys : forall j, In j (jobs q) -> enqueued_at j = job_id j
}.


(** The pending jobs of a queue, in enqueue order. *)
Definition pending_jobs (q : Queue) : list QueueJob := filter is_pending (jobs q).

End WorkQueue.

(** ** store/scanStore.ts *)

Module ScanStore.
Import JS.
Open Scope string_scope.
Open Scope list_scope.
Open Scope Z_scope.

Inductive ScanStep :=
| welcome | consent | setup | calibrate | capture | processing | results.

Definition ScanStep_eq_dec (a b : ScanStep) : {a = b} + {a <> b}.
Proof. decide equality. Defined.

(** [interface CalibrationData] *)
Record CalibrationData := mkCalibration {
  scaleFactor : number;
  cal_confidence : number;
  markerDetected : bool
}.

(** The data fields of [ScanState]; a [Blob] is kept as its bytes, the
    measurements as the list the mapping module works on. *)
Record ScanState := mkState {
  currentStep : ScanStep;
  steps : list ScanStep;
  sessionId : option string;
  language : string;
  calibration : option CalibrationData;
  videoBlob : option string;
  captureProgress : number;
  processingProgress : number;
  processingMessage : string;
  measurements : list MeasurementMapping.EyesonMeasurement;
  meshUrl : option string;
  voiceEnabled : bool;
  voiceSpeed : number;
  lastVoicePrompt : string;
  error : option string
}.

(** [initialState] *)
Definition initialState : ScanState :=
  mkState welcome
          [welcome; consent; setup; calibrate; capture; processing; results]
          None "en" None None 0%float 0%float "" [] None true 1.0%float "" None.

(** [set({ currentStep: step })] *)
Definition setStep (step : ScanStep) (st : ScanState) : ScanState :=
  mkState step (steps st) (sessionId st) (language st) (calibration st)
          (videoBlob st) (captureProgress st) (processingProgress st)
          (processingMessage st) (measurements st) (meshUrl st)
          (voiceEnabled st) (voiceSpeed st) (lastVoicePrompt st) (error st).

(** [Array.prototype.indexOf]: the first index of [x], or -1. *)
Fixpoint indexOf (l : list ScanStep) (x : ScanStep) : Z :=
  match l with
  | [] => -1
  | y :: l' =>
      if ScanStep_eq_dec y x then 0
      else let i := indexOf l' x in if i <? 0 then -1 else i + 1
  end.

(** [steps[i]], [undefined] out of range. *)
Definition at_index (l : list ScanStep) (i : Z) : option ScanStep :=
  if i <? 0 then None else nth_error l (Z.to_nat i).

(** [set({ currentStep: steps[i] })]; the guards of [nextStep] and
    [previousStep] keep [i] in range, where the store is left as it is. *)
Definition goTo (i : Z) (st : ScanState) : ScanState :=
  match at_index (steps st) i with
  | Some step => setStep step st
  | None => st
  end.

(** [nextStep] *)
Definition nextStep (st : ScanState) : ScanState :=
  let currentIndex := indexOf (steps st) (currentStep st) in
  if currentIndex <? Z.of_nat (List.length (steps st)) - 1
  then goTo (currentIndex + 1) st
  else st.

(** [previousStep] *)
Definition previousStep (st : ScanState) : ScanState :=
  let currentIndex := indexOf (steps st) (currentStep st) in
  if 0 <? currentIndex
  then goTo (currentIndex - 1) st
  else st.

(** [reset]: everything back to [initialState], the steps kept. *)
Definition reset (st : ScanState) : ScanState :=
  mkState (currentStep initialState) (steps st) (sessionId initialState)
          (language initialState) (calibration initialState)
          (videoBlob initialState) (captureProgress initialState)
          (processingProgress initialState) (processingMessage initialState)
          (measurements initialState) (meshUrl initialState)
          (voiceEnabled initialState) (voiceSpeed initialState)
          (lastVoicePrompt initialState) (error initialState).

(** What the wizard's buttons do to the store. *)
Inductive Action := Next | Previous | Reset | SetStep (step : ScanStep).

Definition act (st : ScanState) (a : Action) : ScanState :=
  match a with
  | Next => nextStep st
  | Previous => previousStep st
  | Reset => reset st
  | SetStep step => setStep step st
  end.

(** *** Notions used to state the properties *)

(** The position of the current step in the wizard. *)
Definition position (st : ScanState) : Z := indexOf (steps st) (currentStep st).

End ScanStore.

(** ** services/patternFactoryApi.ts *)

Module PatternFactoryApi.
Import JS.
Open Scope string_scope.
Open Scope list_scope.

(** [localStorage]: strings under string keys. *)
Definition Storage := object string.

(** [localStorage.removeItem] *)
Definition removeItem (k : string) (s : Storage) : Storage :=
  filter (fun e => negb (String.eqb k (fst e))) s.

(** The two module variables and the storage they are kept in step with;
    [null] is [None]. *)
Record Auth := mkAuth {
  accessToken : option string;
  refreshToken : option string;
  localStorage : Storage
}.

(** Loading the module: both variables are read from the storage. *)
Definition load (storage : Storage) : Auth :=
  mkAuth (get "access_token" storage) (get "refresh_token" storage) storage.

(** [login], once the server has answered with the two tokens. *)
Definition login (a : Auth) (access refresh : string) : Auth :=
  mkAuth (Some access) (Some refresh)
         (set "refresh_token" refresh (set "access_token" access (localStorage a))).

(** [logout] *)
Definition logout (a : Auth) : Auth :=
  mkAuth None None
         (removeItem "refresh_token" (removeItem "access_token" (localStorage a))).

(** [isAuthenticated]: [!!accessToken] *)
Definition isAuthenticated (a : Auth) : bool :=
  match accessToken a with
  | Some t => truthy_string t
  | None => false
  end.

(** The request interceptor: the [Authorization] header it adds, if any. *)
Definition authorization (a : Auth) : option string :=
  match accessToken a with
  | Some t => if truthy_string t then Some ("Bearer " ++ t)%string else None
  | None => None
  end.

(** The response interceptor on a 401, the refresh request answered with a
    new access token. *)
Definition refreshed (a : Auth) (access : string) : Auth :=
  mkAuth (Some access) (refreshToken a) (set "access_token" access (localStorage a)).

(** The response interceptor on a 401, the refresh request failed. *)
Definition refresh_failed (a : Auth) : Auth := logout a.

(** What happens to the tokens during a session. *)
Inductive AuthEvent :=
| LoggedIn (access refresh : string)
| LoggedOut
| Refreshed (access : string)
| RefreshFailed.

Definition on_event (a : Auth) (ev : AuthEvent) : Auth :=
  match ev with
  | LoggedIn access refresh => login a access refresh
  | LoggedOut => logout a
  | Refreshed access => refreshed a access
  | RefreshFailed => refresh_failed a
  end.

(** The answer of [GET /orders/{id}/status], as far as [pollForFiles]
    reads it. *)
Record OrderStatus := mkStatus {
  status : string;
  plt : bool;
  pds : bool;
  dxf : bool
}.

(** What one call of [getOrderStatus] comes to: an answer, or a rejection. *)
Inductive Reply :=
| Answer (s : OrderStatus)
| Failure (err : string).

(** How the promise of [pollForFiles] stands: resolved, rejected, or still
    waiting for the next check. *)
Inductive Outcome :=
| Resolved
| Rejected (err : string)
| Waiting.

(** [pollForFiles], against the replies its successive checks receive:
    the state of the promise and the statuses handed to [onProgress], in
    order.  The callback is taken not to throw. *)
Fixpoint pollForFiles (replies : list Reply) : Outcome * list OrderStatus :=
  match replies with
  | [] => (Waiting, [])
  | Failure err :: _ => (Rejected err, [])
  | Answer s :: rest =>
      if plt s then (Resolved, [s])
      else if String.eqb (status s) "error"
           then (Rejected "Order processing failed", [s])
           else let (outcome, progress) := pollForFiles rest in
                (outcome, s :: progress)
  end.

(** *** Notions used to state the properties *)

(** The variables hold what the storage holds. *)
Definition in_step (a : Auth) : Prop :=
  accessToken a = get "access_token" (localStorage a)
  /\ refreshToken a = get "refresh_token" (localStorage a).

(** A reply after which [pollForFiles] checks again. *)
Definition inconclusive (r : Reply) : bool :=
  match r with
  | Answer s => negb (plt s) && negb (String.eqb (status s) "error")
  | Failure _ => false
  end.

(** The statuses among replies. *)
Definition answers (rs : list Reply) : list OrderStatus :=
  flat_map (fun r => match r with Answer s => [s] | Failure _ => [] end) rs.

End PatternFactoryApi.

(** * Properties of the measurement mapping *)

Module MappingProofs.
Import JS MeasurementMapping.
Open Scope string_scope.
Open Scope list_scope.

(** *** Objects *)

Section ObjectFacts.
Context {V : Type}.
Implicit Types (o : object V) (k : string) (v : V).



Lemma get_set_same k v o : get k (set k v o) = Some v.
Proof.
  induction o as [|[k' v'] o IH]; simpl.
  - now rewrite String.eqb_refl.
  - destruct (String.eqb_spec k k') as [->|Hne]; simpl.
    + now rewrite String.eqb_refl.
    + destruct (String.eqb_spec k k'); [contradiction | exact IH].
Qed.

Lemma get_set_other k k' v o : k <> k' -> get k' (set k v o) = get k' o.
Proof.
  intros Hne. induction o as [|[k0 v0] o IH]; simpl.
  - destruct (String.eqb_spec k' k); [congruence | reflexivity].
  - destruct (String.eqb_spec k k0) as [->|Hk]; simpl.
    + destruct (String.eqb_spec k' k0); [congruence | reflexivity].
    + now rewrite IH.
Qed.


End ObjectFacts.

Lemma filter_nil_iff {A} (f : A -> bool) l :
  filter f l = [] <-> forall x, In x l -> f x = false.
Proof.
  induction l as [|a l IH]; simpl.
  - split; [intros _ x [] | reflexivity].
  - destruct (f a) eqn:Ha; split.
    + discriminate.
    + intros H. specialize (H a (or_introl eq_refl)). congruence.
    + intros H x [<-|Hx]; [assumption | now apply IH].
    + intros H. apply IH. intros x Hx. apply H. now right.
Qed.

(** *** The code map *)


Lemma required_codes_truthy code : In code requiredCodes -> truthy_string code = true.
Proof.
  intros H.
  assert (Hall : forallb truthy_string requiredCodes = true) by reflexivity.
  rewrite forallb_forall in Hall. now apply Hall.
Qed.

(** Lower-cased keys: of all that an object inherits, only [constructor]
    and [__proto__] are spelt without an upper-case letter. *)











(** *** transformToPatternFactory *)






(** C10.  A scan measurement named constructor is not dropped: indexing
    the code map with that name gives the function [Object], which every
    object literal inherits, and the result holds the measurement under the
    text of that function, a key that is none of the thirteen codes.  The
    same happens for the name [__proto__]. *)
Theorem inherited_name_is_not_dropped :
  transformToPatternFactory [mkEyeson "constructor" 1%float "cm" 0.9%float P0]
  = [(native_function "Object", Some (mkPF 1%float "cm" (Some 0.9%float)))]
  /\ transformToPatternFactory [mkEyeson "__proto__" 1%float "cm" 0.9%float P0]
     = [("[object Object]", Some (mkPF 1%float "cm" (Some 0.9%float)))]
  /\ existsb (String.eqb (native_function "Object")) requiredCodes = false
  /\ existsb (String.eqb "[object Object]") requiredCodes = false.
Proof. repeat split. Qed.


(** *** validateMeasurements *)

Lemma get_map_slots f ms k :
  get k (map_slots f ms) = option_map (option_map (f k)) (get k ms).
Proof.
  induction ms as [|[k' slot] ms IH]; simpl; [reflexivity|].
  destruct (String.eqb_spec k k') as [->|Hne]; [reflexivity | exact IH].
Qed.

Lemma get_without k k' ms : k <> k' -> get k' (without k ms) = get k' ms.
Proof.
  intros Hne. induction ms as [|[k0 slot] ms IH]; simpl; [reflexivity|].
  destruct (String.eqb_spec k k0) as [->|Hk]; simpl.
  - destruct (String.eqb_spec k' k0); [congruence | exact IH].
  - destruct (String.eqb_spec k' k0); [reflexivity | exact IH].
Qed.

Lemma primary_errors_ext ms ms' :
  (forall k, In k primaryCodes -> missing_or_zero ms' k = missing_or_zero ms k) ->
  primary_errors ms' = primary_errors ms.
Proof.
  intros H. unfold primary_errors. f_equal. now apply filter_ext_in.
Qed.

Lemma missing_with_confidence g ms k :
  missing_or_zero (with_confidence g ms) k = missing_or_zero ms k.
Proof.
  unfold missing_or_zero, with_confidence. rewrite get_map_slots.
  now destruct (get k ms) as [[d|]|].
Qed.

Lemma missing_with_value g ms k :
  (forall k v, truthy (g k v) = truthy v) ->
  missing_or_zero (with_value g ms) k = missing_or_zero ms k.
Proof.
  intros Hg. unfold missing_or_zero, with_value. rewrite get_map_slots.
  destruct (get k ms) as [[d|]|]; simpl; [now rewrite Hg | reflexivity | reflexivity].
Qed.

Lemma valid_errors ms :
  valid (validateMeasurements ms) = true <-> errors (validateMeasurements ms) = [].
Proof.
  simpl. destruct (primary_errors ms); split; congruence.
Qed.

Lemma valid_iff_primary_present ms :
  valid (validateMeasurements ms) = true <->
  forall k, In k primaryCodes -> missing_or_zero ms k = false.
Proof.
  rewrite valid_errors. simpl. unfold primary_errors.
  etransitivity; [|apply (filter_nil_iff (missing_or_zero ms) primaryCodes)].
  destruct (filter (missing_or_zero ms) primaryCodes); simpl; split; congruence.
Qed.

Lemma errors_are_missing_codes ms e :
  In e (errors (validateMeasurements ms)) ->
  exists k, In k primaryCodes /\ missing_or_zero ms k = true
            /\ e = MissingRequired (getMeasurementDisplayName k).
Proof.
  simpl. unfold primary_errors. rewrite in_map_iff.
  intros [k [<- Hk]]. apply filter_In in Hk. exists k. tauto.
Qed.

Lemma missing_code_reported ms k :
  In k primaryCodes -> missing_or_zero ms k = true ->
  In (MissingRequired (getMeasurementDisplayName k)) (errors (validateMeasurements ms)).
Proof.
  intros Hk Hm. simpl. unfold primary_errors.
  apply (in_map (fun code => MissingRequired (getMeasurementDisplayName code))).
  apply filter_In. now split.
Qed.

Lemma low_confidence_reported ms code d c :
  In (code, Some d) ms -> confidence d = Some c -> (c <? 0.75)%float = true ->
  In (LowConfidence (getMeasurementDisplayName code) c) (confidence_warnings ms).
Proof.
  intros Hin Hc Hlt. unfold confidence_warnings. apply in_flat_map.
  exists (code, Some d). split; [assumption|].
  simpl. rewrite Hc, Hlt. now left.
Qed.

Lemma confidence_warnings_below ms disp c :
  In (LowConfidence disp c) (confidence_warnings ms) -> (c <? 0.75)%float = true.
Proof.
  unfold confidence_warnings. rewrite in_flat_map.
  intros [[code [d|]] [_ H]]; simpl in H; [|contradiction].
  destruct (confidence d) as [c'|]; [|contradiction].
  destruct (c' <? 0.75)%float eqn:Hlt; [|contradiction].
  destruct H as [[= _ <-]|[]]. exact Hlt.
Qed.

Lemma ratio_warnings_kinds ms e :
  In e (ratio_warnings ms) -> e = ChestNotLargerThanWaist \/ e = HipNotLargerThanWaist.
Proof.
  unfold ratio_warnings. rewrite in_app_iff.
  destruct (not_larger _ _), (not_larger _ _); simpl; intuition.
Qed.


Lemma errors_with_confidence g ms :
  errors (validateMeasurements (with_confidence g ms)) = errors (validateMeasurements ms).
Proof.
  simpl. apply primary_errors_ext. intros k _. apply missing_with_confidence.
Qed.

Lemma errors_with_value g ms :
  (forall k v, truthy (g k v) = truthy v) ->
  errors (validateMeasurements (with_value g ms)) = errors (validateMeasurements ms).
Proof.
  intros Hg. simpl. apply primary_errors_ext. intros k _. now apply missing_with_value.
Qed.

Lemma valid_of_errors ms ms' :
  errors (validateMeasurements ms') = errors (validateMeasurements ms) ->
  valid (validateMeasurements ms') = valid (validateMeasurements ms).
Proof. simpl. now intros ->. Qed.

Lemma missing_without k k' ms :
  k <> k' -> missing_or_zero (without k ms) k' = missing_or_zero ms k'.
Proof. intros Hne. unfold missing_or_zero. now rewrite get_without. Qed.

Lemma value_of_without k k' ms :
  k <> k' -> value_of (without k ms) k' = value_of ms k'.
Proof. intros Hne. unfold value_of. now rewrite get_without. Qed.

Lemma not_required_not_primary k : ~ In k requiredCodes -> ~ In k primaryCodes.
Proof. intros H Hk. apply H. simpl in *. tauto. Qed.

Lemma errors_without k ms :
  ~ In k primaryCodes ->
  errors (validateMeasurements (without k ms)) = errors (validateMeasurements ms).
Proof.
  intros Hk. simpl. apply primary_errors_ext. intros k' Hk'.
  apply missing_without. congruence.
Qed.

Lemma confidence_warnings_without k ms :
  incl (confidence_warnings (without k ms)) (confidence_warnings ms).
Proof.
  intros w. unfold confidence_warnings, without. rewrite !in_flat_map.
  intros [e [He Hw]]. apply filter_In in He. exists e. tauto.
Qed.

Lemma ratio_warnings_without k ms :
  ~ In k requiredCodes -> ratio_warnings (without k ms) = ratio_warnings ms.
Proof.
  intros Hk. unfold ratio_warnings.
  rewrite !value_of_without; [reflexivity | | |];
    intros ->; apply Hk; simpl; tauto.
Qed.

Lemma confidence_warnings_low ms w :
  In w (confidence_warnings ms) -> plausibility w = false.
Proof.
  unfold confidence_warnings. rewrite in_flat_map.
  intros [[code data] [_ H]]. simpl in H.
  destruct (low_confidence data); [|contradiction].
  destruct H as [<-|[]]. reflexivity.
Qed.

Lemma not_larger_iff a b :
  not_larger a b = true
  <-> exists x y, a = Some x /\ b = Some y
                  /\ truthy x = true /\ truthy y = true /\ (x <=? y)%float = true.
Proof.
  unfold not_larger. destruct a as [x|], b as [y|]; split;
    try discriminate; try (intros [x' [y' [[=] _]]]; fail);
    try (intros [x' [y' [_ [[=] _]]]]; fail).
  - intros H. apply andb_prop in H. destruct H as [H Hle].
    apply andb_prop in H. destruct H as [Hx Hy]. exists x, y. auto.
  - intros [x' [y' [[= <-] [[= <-] [Hx [Hy Hle]]]]]]. now rewrite Hx, Hy, Hle.
Qed.

Lemma chest_warning_iff ms :
  In ChestNotLargerThanWaist (warnings (validateMeasurements ms))
  <-> not_larger (value_of ms "Cg") (value_of ms "Wg") = true.
Proof.
  simpl. rewrite in_app_iff. unfold ratio_warnings. rewrite in_app_iff. split.
  - intros [H|[H|H]].
    + apply confidence_warnings_low in H. discriminate.
    + destruct (not_larger (value_of ms "Cg") (value_of ms "Wg"));
        [reflexivity | contradiction].
    + destruct (not_larger (value_of ms "Hg") (value_of ms "Wg")); simpl in H;
        [destruct H as [[=]|[]] | contradiction].
  - intros ->. right; left. now left.
Qed.

Lemma hip_warning_iff ms :
  In HipNotLargerThanWaist (warnings (validateMeasurements ms))
  <-> not_larger (value_of ms "Hg") (value_of ms "Wg") = true.
Proof.
  simpl. rewrite in_app_iff. unfold ratio_warnings. rewrite in_app_iff. split.
  - intros [H|[H|H]].
    + apply confidence_warnings_low in H. discriminate.
    + destruct (not_larger (value_of ms "Cg") (value_of ms "Wg")); simpl in H;
        [destruct H as [[=]|[]] | contradiction].
    + destruct (not_larger (value_of ms "Hg") (value_of ms "Wg"));
        [reflexivity | contradiction].
  - intros ->. right; right. now left.
Qed.

Lemma confidence_warnings_with_value g ms :
  confidence_warnings (with_value g ms) = confidence_warnings ms.
Proof.
  unfold confidence_warnings, with_value, map_slots.
  induction ms as [|[code [d|]] ms IH]; simpl; [reflexivity | | exact IH].
  now rewrite IH.
Qed.

Lemma ratio_warnings_plausibility ms :
  filter (fun w => negb (plausibility w)) (ratio_warnings ms) = [].
Proof.
  unfold ratio_warnings. rewrite filter_app.
  now destruct (not_larger _ _), (not_larger _ _).
Qed.

(** *** The verdict *)

(** C1, as stated, fails: a scan whose chest girth has confidence 0.89,
    every other slot at 0.95, is valid, with no failure and not even a
    warning. *)
Lemma chest_confidence_089_passes :
  validateMeasurements (set "Cg" (chest 0.89%float) confident_scan)
  = mkResult true [] [].
Proof. reflexivity. Qed.

(** C1, amended.  A slot whose confidence is strictly below 0.75 is
    reported among the warnings; no low-confidence entry is ever among the
    failures; the failures and the verdict are the same whatever the
    confidences are changed to; and the verdict is pass as soon as each of
    Cg, Wg, Hg, Sh, Al, Nc is present with a non-zero value. *)
Theorem low_confidence_warns_never_fails
        (ms : PatternFactoryMeasurements) (code : string)
        (d : PFMeasurement) (c : number) :
  In (code, Some d) ms -> confidence d = Some c -> (c <? 0.75)%float = true ->
  In (LowConfidence (getMeasurementDisplayName code) c)
     (warnings (validateMeasurements ms))
  /\ (forall disp c', ~ In (LowConfidence disp c') (errors (validateMeasurements ms)))
  /\ (forall g,
         errors (validateMeasurements (with_confidence g ms))
         = errors (validateMeasurements ms)
         /\ valid (validateMeasurements (with_confidence g ms))
            = valid (validateMeasurements ms))
  /\ ((forall k, In k primaryCodes -> missing_or_zero ms k = false) ->
      valid (validateMeasurements ms) = true).
Proof.
  intros Hin Hc Hlt. repeat split.
  - simpl. apply in_or_app. left. eapply low_confidence_reported; eassumption.
  - intros disp c' He. apply errors_are_missing_codes in He.
    destruct He as [k [_ [_ He]]]. discriminate.
  - apply errors_with_confidence.
  - apply valid_of_errors, errors_with_confidence.
  - apply valid_iff_primary_present.
Qed.

Lemma low_confidence_warns_never_fails_witness :
  In (LowConfidence "Chest Girth" 0.7%float)
     (warnings (validateMeasurements (set "Cg" (chest 0.7%float) confident_scan))).
Proof.
  refine (proj1 (low_confidence_warns_never_fails
                   (set "Cg" (chest 0.7%float) confident_scan)
                   "Cg" (mkPF 102.5%float "cm" (Some 0.7%float)) 0.7%float _ _ _)).
  - simpl. left. reflexivity.
  - reflexivity.
  - reflexivity.
Defined.

(** C2, as stated, fails: the default measurements without the back
    width, one of the thirteen primary codes, are valid. *)
Lemma missing_back_width_passes :
  validateMeasurements (without "Bw" DEFAULT_MEASUREMENTS) = mkResult true [] [].
Proof. reflexivity. Qed.

(** C2, amended.  For every measurement set: the verdict is a fail, with
    a failure naming the code, whenever one of Cg, Wg, Hg, Sh, Al, Nc is
    absent (or has no non-zero value), and it is a pass exactly when none
    of the six is; taking a slot that is not one of the thirteen primary
    codes out of the set, whether the set passes or fails, changes neither
    the failures nor the verdict and adds no warning. *)
Theorem missing_required_code_fails (ms : PatternFactoryMeasurements) :
  (forall code, In code primaryCodes -> missing_or_zero ms code = true ->
     valid (validateMeasurements ms) = false
     /\ In (MissingRequired (getMeasurementDisplayName code))
           (errors (validateMeasurements ms)))
  /\ (valid (validateMeasurements ms) = true
      <-> forall code, In code primaryCodes -> missing_or_zero ms code = false)
  /\ (forall k, ~ In k requiredCodes ->
        errors (validateMeasurements (without k ms)) = errors (validateMeasurements ms)
        /\ valid (validateMeasurements (without k ms)) = valid (validateMeasurements ms)
        /\ incl (warnings (validateMeasurements (without k ms)))
                (warnings (validateMeasurements ms))).
Proof.
  split; [|split].
  - intros code Hcode Hmiss. split.
    + destruct (valid (validateMeasurements ms)) eqn:Hv; [|reflexivity].
      pose proof (proj1 (valid_iff_primary_present ms) Hv code Hcode) as Hp.
      congruence.
    + now apply missing_code_reported.
  - apply valid_iff_primary_present.
  - intros k Hk. split; [|split].
    + apply errors_without. now apply not_required_not_primary.
    + apply valid_of_errors, errors_without. now apply not_required_not_primary.
    + simpl. rewrite (ratio_warnings_without k ms Hk).
      apply incl_app; [|apply incl_appr, incl_refl].
      apply incl_appl, confidence_warnings_without.
Qed.

Lemma missing_required_code_fails_witness :
  valid (validateMeasurements (without "Nc" DEFAULT_MEASUREMENTS)) = false
  /\ valid (validateMeasurements (without "front_waist_length" with_front_waist_length))
     = valid (validateMeasurements with_front_waist_length).
Proof.
  split.
  - refine (proj1 (proj1 (missing_required_code_fails
                            (without "Nc" DEFAULT_MEASUREMENTS)) "Nc" _ _)).
    + simpl. tauto.
    + reflexivity.
  - refine (proj1 (proj2 (proj2 (proj2 (missing_required_code_fails
                                          with_front_waist_length))
                                "front_waist_length" _))).
    simpl. intuition discriminate.
Defined.

(** C3, as stated, fails: with a waist girth of 250 cm, far above the
    documented maximum of 160, the scan is still valid; the value only
    earns the two plausibility warnings. *)
Lemma waist_250_passes :
  validateMeasurements (set "Wg" (waist 250%float) confident_scan)
  = mkResult true [] [ChestNotLargerThanWaist; HipNotLargerThanWaist].
Proof. reflexivity. Qed.

(** C3, amended.  Values are not checked against a range: changing the
    values of a measurement set to any other numbers, zero and NaN kept
    apart from the rest, changes neither the failures nor the verdict,
    whatever the confidences, and leaves the warnings as they are but for
    the two plausibility warnings, chest against waist and hip against
    waist, the only ones a value can add or remove: they are issued
    exactly when the chest girth, respectively the hip girth, is not
    greater than the waist girth, both being non-zero.  The verdict is a
    fail exactly when one of Cg, Wg, Hg, Sh, Al, Nc is absent or has no
    non-zero value. *)
Theorem values_are_not_range_checked
        (ms : PatternFactoryMeasurements) (g : string -> number -> number) :
  (forall k v, truthy (g k v) = truthy v) ->
  errors (validateMeasurements (with_value g ms)) = errors (validateMeasurements ms)
  /\ valid (validateMeasurements (with_value g ms)) = valid (validateMeasurements ms)
  /\ filter (fun w => negb (plausibility w))
            (warnings (validateMeasurements (with_value g ms)))
     = filter (fun w => negb (plausibility w)) (warnings (validateMeasurements ms))
  /\ (forall w, In w (warnings (validateMeasurements (with_value g ms))) ->
        In w (warnings (validateMeasurements ms))
        \/ w = ChestNotLargerThanWaist \/ w = HipNotLargerThanWaist)
  /\ (In ChestNotLargerThanWaist (warnings (validateMeasurements ms)) <->
      exists c w, value_of ms "Cg" = Some c /\ value_of ms "Wg" = Some w
                  /\ truthy c = true /\ truthy w = true /\ (c <=? w)%float = true)
  /\ (In HipNotLargerThanWaist (warnings (validateMeasurements ms)) <->
      exists h w, value_of ms "Hg" = Some h /\ value_of ms "Wg" = Some w
                  /\ truthy h = true /\ truthy w = true /\ (h <=? w)%float = true)
  /\ (valid (validateMeasurements ms) = false <->
      exists k, In k primaryCodes /\ missing_or_zero ms k = true).
Proof.
  intros Hg. split; [|split; [|split; [|split; [|split; [|split]]]]].
  5: { rewrite chest_warning_iff. apply not_larger_iff. }
  5: { rewrite hip_warning_iff. apply not_larger_iff. }
  - now apply errors_with_value.
  - now apply valid_of_errors, errors_with_value.
  - simpl. rewrite !filter_app, confidence_warnings_with_value.
    now rewrite !ratio_warnings_plausibility.
  - simpl. intros w Hw. apply in_app_or in Hw. destruct Hw as [Hw|Hw].
    + left. apply in_or_app. left. now rewrite confidence_warnings_with_value in Hw.
    + right. eapply ratio_warnings_kinds. eassumption.
  - split.
    + intros Hv. simpl in Hv. unfold primary_errors in Hv.
      destruct (filter (missing_or_zero ms) primaryCodes) as [|k l] eqn:Hf;
        [discriminate|].
      exists k. apply filter_In. rewrite Hf. now left.
    + intros [k [Hk Hm]].
      destruct (valid (validateMeasurements ms)) eqn:Hv; [|reflexivity].
      pose proof (proj1 (valid_iff_primary_present ms) Hv k Hk) as Hp.
      congruence.
Qed.

Lemma values_are_not_range_checked_witness :
  valid (validateMeasurements (with_value waist_to_250 confident_scan))
  = valid (validateMeasurements confident_scan).
Proof.
  refine (proj1 (proj2 (values_are_not_range_checked confident_scan waist_to_250 _))).
  intros k v. unfold waist_to_250.
  destruct (String.eqb k "Wg"); simpl; [|reflexivity].
  destruct (truthy v) eqn:Hv; [reflexivity | exact Hv].
Defined.

(** C8.  When every individual check is satisfied, a chest girth not
    greater than the waist girth, or a hip girth not greater than the
    waist girth, is reported among the warnings; the failures stay empty
    and the verdict is pass. *)
Theorem ratio_violation_is_warning
        (ms : PatternFactoryMeasurements) (cg wg hg : PFMeasurement) :
  (forall k, In k primaryCodes -> missing_or_zero ms k = false) ->
  get "Cg" ms = Some (Some cg) ->
  get "Wg" ms = Some (Some wg) ->
  get "Hg" ms = Some (Some hg) ->
  ((value cg <=? value wg)%float = true ->
     In ChestNotLargerThanWaist (warnings (validateMeasurements ms)))
  /\ ((value hg <=? value wg)%float = true ->
        In HipNotLargerThanWaist (warnings (validateMeasurements ms)))
  /\ errors (validateMeasurements ms) = []
  /\ valid (validateMeasurements ms) = true.
Proof.
  intros Hall Hcg Hwg Hhg.
  assert (Hv : valid (validateMeasurements ms) = true)
    by now apply valid_iff_primary_present.
  assert (Tc : truthy (value cg) = true).
  { specialize (Hall "Cg"). unfold missing_or_zero in Hall. rewrite Hcg in Hall.
    apply negb_false_iff, Hall. simpl. tauto. }
  assert (Tw : truthy (value wg) = true).
  { specialize (Hall "Wg"). unfold missing_or_zero in Hall. rewrite Hwg in Hall.
    apply negb_false_iff, Hall. simpl. tauto. }
  assert (Th : truthy (value hg) = true).
  { specialize (Hall "Hg"). unfold missing_or_zero in Hall. rewrite Hhg in Hall.
    apply negb_false_iff, Hall. simpl. tauto. }
  split; [|split; [|split]].
  - intros Hle. simpl. apply in_or_app. right. unfold ratio_warnings, value_of.
    rewrite Hcg, Hwg. simpl. rewrite Tc, Tw, Hle. simpl. now left.
  - intros Hle. simpl. apply in_or_app. right. unfold ratio_warnings, value_of.
    rewrite Hhg, Hwg. apply in_or_app. right.
    simpl. rewrite Th, Tw, Hle. simpl. now left.
  - now apply valid_errors.
  - exact Hv.
Qed.

Lemma ratio_violation_is_warning_witness :
  In ChestNotLargerThanWaist
     (warnings (validateMeasurements (set "Wg" (waist 110%float) confident_scan)))
  /\ valid (validateMeasurements (set "Wg" (waist 110%float) confident_scan)) = true.
Proof.
  pose proof (ratio_violation_is_warning
                (set "Wg" (waist 110%float) confident_scan)
                (mkPF 102.5%float "cm" (Some 0.95%float))
                (mkPF 110%float "cm" (Some 0.95%float))
                (mkPF 98.5%float "cm" (Some 0.95%float))) as H.
  destruct H as [Hc [_ [_ Hv]]].
  - intros k Hk. simpl in Hk.
    repeat (destruct Hk as [<-|Hk]; [reflexivity|]). contradiction.
  - reflexivity.
  - reflexivity.
  - reflexivity.
  - split; [apply Hc; reflexivity | exact Hv].
Defined.

(** *** transformToEyeson *)

(** A number that is at least 0.9 is neither zero nor NaN: the first
    test of [data.confidence && data.confidence >= 0.9] is implied by the
    second. *)
Lemma at_least_09_truthy (c : number) : (0.9 <=? c)%float = true -> truthy c = true.
Proof.
  unfold truthy, PrimFloat.is_zero, PrimFloat.is_nan.
  rewrite FloatAxioms.leb_spec, !FloatAxioms.eqb_spec.
  destruct (Prim2SF c) as [s|s| |s m e] eqn:Hc.
  - vm_compute. destruct s; discriminate.
  - destruct s; vm_compute; congruence.
  - vm_compute. discriminate.
  - intros _. unfold SFeqb.
    replace (SFcompare (S754_finite s m e) (Prim2SF PrimFloat.zero))
      with (Some (if s then Lt else Gt)) by (destruct s; reflexivity).
    replace (SFcompare (S754_finite s m e) (S754_finite s m e)) with (Some Eq).
    + now destruct s.
    + simpl. rewrite Z.compare_refl.
      destruct s; simpl; now rewrite ?Pos.compare_cont_refl, ?Pos.compare_refl.
Qed.

Lemma grade_P0_iff (c : option number) :
  grade_of_confidence c = P0 <-> exists x, c = Some x /\ (0.9 <=? x)%float = true.
Proof.
  unfold grade_of_confidence. destruct c as [x|].
  - destruct (0.9 <=? x)%float eqn:Hle.
    + rewrite (at_least_09_truthy x Hle). simpl. split; [eauto | reflexivity].
    + rewrite andb_false_r. split; [discriminate|].
      intros [y [[= <-] Hy]]. congruence.
  - split; [discriminate | intros [x [[=] _]]].
Qed.

Lemma grades_of_transformToEyeson pf :
  map grade (transformToEyeson pf)
  = map (fun d => grade_of_confidence (confidence d)) (defined_slots pf).
Proof.
  unfold transformToEyeson, defined_slots.
  induction pf as [|[code [d|]] pf IH]; simpl; [reflexivity | now f_equal | exact IH].
Qed.

Lemma values_of_transformToEyeson pf :
  map e_value (transformToEyeson pf) = map value (defined_slots pf).
Proof.
  unfold transformToEyeson, defined_slots.
  induction pf as [|[code [d|]] pf IH]; simpl; [reflexivity | now f_equal | exact IH].
Qed.

(** C9, as stated, fails: two chest girths of the same value are graded
    P0 and P1 according to their confidence. *)
Lemma chest_grade_depends_on_confidence :
  map grade (transformToEyeson [("Cg", chest 0.95%float)]) = [P0]
  /\ map grade (transformToEyeson [("Cg", chest 0.85%float)]) = [P1].
Proof. split; reflexivity. Qed.

(** C9, amended.  The grade given by the conversion to the EYESON form is
    a function of the confidence alone.  In every measurement set, the
    entries answer the defined slots one for one, in order, each with the
    value of its slot, graded P0 exactly when the confidence of the slot
    is present and at least 0.9, and P1 otherwise; so two measurement sets
    whose slots carry the same confidences, whatever their codes and
    values, are given the same grades. *)
Theorem grade_follows_confidence (pf : PatternFactoryMeasurements) :
  Forall2 (fun e d =>
             e_value e = value d
             /\ (grade e = P0 <->
                 exists c, confidence d = Some c /\ (0.9 <=? c)%float = true)
             /\ (grade e = P1 <->
                 forall c, confidence d = Some c -> (0.9 <=? c)%float = false))
          (transformToEyeson pf) (defined_slots pf)
  /\ (forall pf', map confidence (defined_slots pf) = map confidence (defined_slots pf') ->
        map grade (transformToEyeson pf) = map grade (transformToEyeson pf')).
Proof.
  split.
  - unfold transformToEyeson, defined_slots.
    induction pf as [|[code [d|]] pf IH]; simpl; [constructor | | exact IH].
    constructor; [|exact IH]. simpl. split; [reflexivity|].
    pose proof (grade_P0_iff (confidence d)) as HP0. split; [exact HP0|].
    destruct (grade_of_confidence (confidence d)) eqn:Hg.
    + split; [discriminate|]. intros Hall.
      destruct (proj1 HP0 eq_refl) as [c [Hc Hle]].
      rewrite (Hall c Hc) in Hle. discriminate.
    + split; [|reflexivity]. intros _ c Hc.
      destruct (0.9 <=? c)%float eqn:Hle; [|reflexivity].
      assert (HP : P1 = P0) by (apply HP0; eauto). discriminate.
  - intros pf' Hc. rewrite !grades_of_transformToEyeson.
    rewrite <- !(map_map confidence grade_of_confidence). now rewrite Hc.
Qed.

Lemma grade_follows_confidence_witness :
  map grade (transformToEyeson [("Cg", chest 0.95%float); ("Bw", chest 0.85%float)])
  = map grade (transformToEyeson [("Wg", waist 88%float); ("Nc", chest 0.85%float)]).
Proof.
  refine (proj2 (grade_follows_confidence
                   [("Cg", chest 0.95%float); ("Bw", chest 0.85%float)])
                [("Wg", waist 88%float); ("Nc", chest 0.85%float)] _).
  reflexivity.
Defined.

(** *** More on transformToPatternFactory *)










(** *** Round trips *)

Lemma set_fresh {V} k (v : V) (o : object V) :
  ~ In k (keys o) -> set k v o = o ++ [(k, v)].
Proof.
  induction o as [|[k' v'] o IH]; simpl; intros Hk; [reflexivity|].
  destruct (String.eqb_spec k k') as [->|Hne].
  - elim Hk. now left.
  - rewrite IH; [reflexivity|]. intros Hin. apply Hk. now right.
Qed.

Lemma returning_code_name code :
  In code returning_codes ->
  lookup (toLowerCase (get_or_key codeToNameMap code)) MEASUREMENT_CODE_MAP
  = Some (Own code).
Proof.
  intros H. simpl in H.
  repeat (destruct H as [<-|H]; [reflexivity|]). contradiction.
Qed.

Lemma fold_round_trip pf :
  forall acc,
    NoDup (keys (acc ++ pf)) ->
    (forall k slot, In (k, slot) pf -> In k returning_codes /\ plain_slot slot) ->
    fold_left transform_step (transformToEyeson pf) acc = acc ++ pf.
Proof.
  induction pf as [|[k slot] pf IH]; intros acc Hnd Hpf; simpl.
  - now rewrite app_nil_r.
  - destruct (Hpf k slot (or_introl eq_refl)) as [Hk [v [c [-> Hc]]]].
    simpl. unfold transform_step at 2. simpl name.
    rewrite (returning_code_name k Hk). simpl truthy_member. simpl property_key.
    rewrite (required_codes_truthy k)
      by (simpl in Hk; simpl; intuition).
    simpl. rewrite Hc.
    rewrite set_fresh.
    + rewrite IH.
      * now rewrite <- app_assoc.
      * now rewrite <- app_assoc.
      * intros k' slot' Hin. apply Hpf. now right.
    + unfold keys in *. rewrite map_app in Hnd. simpl in Hnd.
      apply NoDup_remove_2 in Hnd. intros Hin. apply Hnd.
      apply in_or_app. now left.
Qed.

(** X3.  Converting a measurement set to the EYESON form and back gives
    the set again, when its keys are distinct codes other than the inseam
    and its slots are in cm with a confidence that is neither zero nor NaN.
    An inseam slot does not come back: its display name, Inseam Length, is
    not a name of the code map. *)
Theorem eyeson_round_trip (pf : PatternFactoryMeasurements) :
  NoDup (keys pf) ->
  (forall k slot, In (k, slot) pf -> In k returning_codes /\ plain_slot slot) ->
  transformToPatternFactory (transformToEyeson pf) = pf
  /\ (forall d, transformToPatternFactory (transformToEyeson [("Il", Some d)]) = []).
Proof.
  intros Hnd Hpf. split.
  - apply (fold_round_trip pf []); assumption.
  - intros d. reflexivity.
Qed.

Lemma eyeson_round_trip_witness :
  transformToPatternFactory
    (transformToEyeson [("Cg", chest 0.95%float); ("Wg", waist 88%float)])
  = [("Cg", chest 0.95%float); ("Wg", waist 88%float)].
Proof.
  refine (proj1 (eyeson_round_trip
                   [("Cg", chest 0.95%float); ("Wg", waist 88%float)] _ _)).
  - repeat constructor; simpl; intuition discriminate.
  - intros k slot [[= <- <-]|[[= <- <-]|[]]].
    + split; [simpl; tauto|]. exists 102.5%float, 0.95%float. now split.
    + split; [simpl; tauto|]. exists 88%float, 0.95%float. now split.
Defined.

(** X4.  Whatever the measurement set, the EYESON form has one entry per
    defined slot, with the slot's value; no entry has an empty unit, and no
    entry has a confidence that is zero or NaN. *)
Theorem transformToEyeson_entries (pf : PatternFactoryMeasurements) :
  map e_value (transformToEyeson pf) = map value (defined_slots pf)
  /\ (forall e, In e (transformToEyeson pf) ->
        truthy_string (e_unit e) = true /\ truthy (e_confidence e) = true).
Proof.
  split; [apply values_of_transformToEyeson|].
  intros e He. unfold transformToEyeson in He. apply in_flat_map in He.
  destruct He as [[code [d|]] [_ He]]; simpl in He; [|contradiction].
  destruct He as [<-|[]]. simpl. split.
  - destruct (truthy_string (unit d)) eqn:Hu; [exact Hu | reflexivity].
  - unfold confidence_or_default. destruct (confidence d) as [c|]; [|reflexivity].
    destruct (truthy c) eqn:Hc; [exact Hc | reflexivity].
Qed.

(** *** getMeasurementCode and getMeasurementDisplayName *)




(** X6.  The display name of a code leads back to the code through
    [getMeasurementCode] for eleven of the thirteen codes; the two names in
    Circumference, of the neck and of the wrist, lead nowhere. *)
Theorem display_name_round_trip (code : string) :
  In code requiredCodes ->
  getMeasurementCode (getMeasurementDisplayName code)
  = if String.eqb code "Nc" || String.eqb code "Wc" then None
    else Some (Own code).
Proof.
  intros H. simpl in H.
  repeat (destruct H as [<-|H]; [reflexivity|]). contradiction.
Qed.

Lemma display_name_round_trip_witness :
  getMeasurementCode (getMeasurementDisplayName "Il") = Some (Own "Il").
Proof.
  refine (display_name_round_trip "Il" _). simpl. tauto.
Defined.

(** *** Validation of a transformed scan *)



(** X8.  A verdict lists at most six failures, all of them missing
    measurements, and at most one warning per slot beside the two
    plausibility warnings. *)
Theorem verdict_size (ms : PatternFactoryMeasurements) :
  List.length (errors (validateMeasurements ms)) <= 6
  /\ (forall e, In e (errors (validateMeasurements ms)) ->
        exists code, In code primaryCodes
                     /\ e = MissingRequired (getMeasurementDisplayName code))
  /\ List.length (warnings (validateMeasurements ms)) <= List.length ms + 2.
Proof.
  split; [|split].
  - simpl. unfold primary_errors. rewrite length_map.
    apply (filter_length_le (missing_or_zero ms) primaryCodes).
  - intros e He. apply errors_are_missing_codes in He.
    destruct He as [k [Hk [_ He]]]. eauto.
  - simpl. rewrite length_app.
    assert (Hc : List.length (confidence_warnings ms) <= List.length ms).
    { unfold confidence_warnings. induction ms as [|[code data] ms IH]; simpl; [lia|].
      rewrite length_app. destruct (low_confidence data); simpl; lia. }
    assert (Hr : List.length (ratio_warnings ms) <= 2).
    { unfold ratio_warnings. rewrite length_app.
      destruct (not_larger _ _), (not_larger _ _); simpl; lia. }
    lia.
Qed.

Lemma eyeson_name_code code :
  In code requiredCodes ->
  getMeasurementCode (get_or_key codeToNameMap code) = Some (Own code).
Proof.
  intros H. simpl in H.
  repeat (destruct H as [<-|H]; [reflexivity|]). contradiction.
Qed.

(** X17.  For each of the thirteen codes, the inseam included, the name
    that [transformToEyeson] gives an entry leads back to the entry's code
    through [getMeasurementCode]. *)
Theorem eyeson_names_have_codes
        (pf : PatternFactoryMeasurements) (code : string) (d : PFMeasurement) :
  In (code, Some d) pf -> In code requiredCodes ->
  exists e, In e (transformToEyeson pf)
            /\ getMeasurementCode (name e) = Some (Own code)
            /\ e_value e = value d.
Proof.
  intros Hin Hcode.
  exists (mkEyeson (get_or_key codeToNameMap code) (value d)
                   (if truthy_string (unit d) then unit d else "cm")
                   (confidence_or_default (confidence d))
                   (grade_of_confidence (confidence d))).
  split; [|split; [now apply eyeson_name_code | reflexivity]].
  unfold transformToEyeson. apply in_flat_map.
  exists (code, Some d). split; [assumption | now left].
Qed.

Lemma eyeson_names_have_codes_witness :
  exists e, In e (transformToEyeson DEFAULT_MEASUREMENTS)
            /\ getMeasurementCode (name e) = Some (Own "Il")
            /\ e_value e = 82.4%float.
Proof.
  refine (eyeson_names_have_codes DEFAULT_MEASUREMENTS "Il"
            (mkPF 82.4%float "cm" (Some 0.86%float)) _ _); simpl; tauto.
Defined.

End MappingProofs.

(** * Properties of the order state machine *)

Module EngineProofs.
Import Orchestrator.
Open Scope string_scope.
Open Scope list_scope.

Lemma State_eqb_eq a b : State_eqb a b = true <-> a = b.
Proof.
  unfold State_eqb. destruct (State_eq_dec a b); split; congruence.
Qed.

Lemma State_eqb_refl a : State_eqb a a = true.
Proof. now apply State_eqb_eq. Qed.

(** An event the matrix defines for a state is a row of the matrix. *)
Lemma next_state_row s event s' :
  next_state s event = Some s' -> In (mkRow s s' event) transition_matrix.
Proof.
  unfold next_state.
  destruct (find _ transition_matrix) as [[a b t]|] eqn:Hf; [|discriminate].
  simpl. intros [= <-]. apply find_some in Hf. destruct Hf as [Hin Hr].
  simpl in Hr. apply andb_prop in Hr. destruct Hr as [Hfrom Htrig].
  apply State_eqb_eq in Hfrom. apply String.eqb_eq in Htrig. now subst.
Qed.

(** *** Walks *)

Lemma legal_walk_snoc s h r :
  legal_walk s (h ++ [r])
  = legal_walk s h
    && (State_eqb (from_state r) (walk_end s h) && legal_record r).
Proof.
  revert s. induction h as [|r0 h IH]; intros s; simpl.
  - now rewrite andb_true_r.
  - rewrite IH. now rewrite !andb_assoc.
Qed.

Lemma walk_end_snoc s h r : walk_end s (h ++ [r]) = to_state r.
Proof. revert s. induction h as [|r0 h IH]; intros s; simpl; [reflexivity | apply IH]. Qed.

(** What [legal_record] says of a record. *)
Lemma legal_record_cases r :
  legal_record r = true ->
  In (mkRow (from_state r) (to_state r) (trigger r)) transition_matrix
  \/ (trigger r = "Cancel"
      /\ pre_terminal (from_state r) = true /\ to_state r = CANCELLED)
  \/ (trigger r = "SLA_TIMEOUT"
      /\ from_state r = RECEIVED /\ to_state r = CANCELLED)
  \/ (trigger r = "DEAD_LETTER"
      /\ awaits_cutter (from_state r) = true /\ to_state r = from_state r)
  \/ (trigger r = "MANUAL_INTERVENTION"
      /\ reviewable (from_state r) = true /\ to_state r = from_state r).
Proof.
  unfold legal_record.
  destruct (String.eqb_spec (trigger r) "Cancel") as [Ht|_].
  { intros H. apply andb_prop in H. destruct H as [Hp Hb].
    apply State_eqb_eq in Hb. right; left. auto. }
  destruct (String.eqb_spec (trigger r) "MANUAL_INTERVENTION") as [Ht|_].
  { intros H. apply andb_prop in H. destruct H as [Hp Hb].
    apply State_eqb_eq in Hb. right; right; right; right. auto. }
  destruct (String.eqb_spec (trigger r) "SLA_TIMEOUT") as [Ht|_].
  { intros H. apply andb_prop in H. destruct H as [Ha Hb].
    apply State_eqb_eq in Ha. apply State_eqb_eq in Hb. right; right; left. auto. }
  destruct (String.eqb_spec (trigger r) "DEAD_LETTER") as [Ht|_].
  { intros H. apply andb_prop in H. destruct H as [Hp Hb].
    apply State_eqb_eq in Hb. right; right; right; left. auto. }
  destruct (next_state (from_state r) (trigger r)) as [s'|] eqn:Hn; [|discriminate].
  intros H. apply State_eqb_eq in H. subst s'. left. now apply next_state_row.
Qed.

(** *** The store *)

Lemma order_state_app os id s id' :
  order_state (os ++ [(id, s)]) id'
  = match order_state os id' with
    | Some x => Some x
    | None => if String.eqb id' id then Some s else None
    end.
Proof.
  induction os as [|[i x] os IH]; simpl; [reflexivity|].
  destruct (String.eqb id' i); [reflexivity | exact IH].
Qed.

Lemma order_state_set os id s id' :
  order_state (set_order_state os id s) id'
  = match order_state os id' with
    | Some x => Some (if String.eqb id id' then s else x)
    | None => None
    end.
Proof.
  induction os as [|[i x] os IH]; simpl; [reflexivity|].
  destruct (String.eqb_spec id i) as [->|Hne]; simpl.
  - destruct (String.eqb_spec id' i) as [->|Hne'].
    + now rewrite String.eqb_refl.
    + destruct (String.eqb_spec i id'); [congruence|].
      now destruct (order_state os id').
  - destruct (String.eqb_spec id' i) as [->|Hne'].
    + destruct (String.eqb_spec id i); [contradiction | reflexivity].
    + exact IH.
Qed.

Lemma in_review_set ids id b id' :
  in_review (set_review ids id b) id'
  = if String.eqb id id' then b else in_review ids id'.
Proof.
  assert (Hothers : in_review (filter (fun i => negb (String.eqb id i)) ids) id'
                    = if String.eqb id id' then false else in_review ids id').
  { unfold in_review. induction ids as [|i ids IH]; simpl.
    - now destruct (String.eqb id id').
    - destruct (String.eqb_spec id i) as [->|Hne]; simpl.
      + rewrite IH. destruct (String.eqb_spec i id') as [->|Hne'].
        * reflexivity.
        * destruct (String.eqb_spec id' i); [congruence | reflexivity].
      + rewrite IH. destruct (String.eqb_spec id id') as [->|Hne'].
        * destruct (String.eqb_spec id' i); [congruence | reflexivity].
        * reflexivity. }
  unfold set_review. destruct b; [|exact Hothers].
  change (in_review (id :: filter (fun i => negb (String.eqb id i)) ids) id')
    with (String.eqb id' id
          || in_review (filter (fun i => negb (String.eqb id i)) ids) id').
  rewrite Hothers, (String.eqb_sym id' id).
  now destruct (String.eqb id id').
Qed.

Lemma history_append e e' r id :
  event_log e' = event_log e ++ [r] ->
  history e' id = history e id ++ (if String.eqb (order_id r) id then [r] else []).
Proof. unfold history. intros ->. now rewrite filter_app. Qed.

Lemma history_same_log e e' id :
  event_log e' = event_log e -> history e' id = history e id.
Proof. unfold history. now intros ->. Qed.


(** *** Events *)

(** No row of the matrix is triggered by a manual intervention. *)
Lemma no_row_of_manual_intervention s : next_state s "MANUAL_INTERVENTION" = None.
Proof. destruct s; reflexivity. Qed.

(** An event that applies writes a legal record, and leaves in manual
    review only an order in a state where reviews start. *)
Lemma apply_event_legal attempts s review failed event s' review' failed' id now payload :
  apply_event attempts s review failed event = Some (s', review', failed') ->
  (review = true -> reviewable s = true) ->
  legal_record (mkRecord id s s' event now payload) = true
  /\ (review' = true -> reviewable s' = true).
Proof.
  unfold apply_event, legal_record. simpl.
  destruct (String.eqb_spec event "Cancel") as [->|_].
  { destruct (pre_terminal s) eqn:Hp; [|discriminate].
    intros [= <- <- <-] _. split; [reflexivity | discriminate]. }
  destruct (String.eqb_spec event "MANUAL_INTERVENTION") as [->|_].
  { destruct review.
    - intros [= <- <- <-] Hr. rewrite (Hr eq_refl), State_eqb_refl.
      split; [reflexivity | discriminate].
    - simpl. rewrite no_row_of_manual_intervention. discriminate. }
  destruct review; [discriminate|].
  destruct (String.eqb_spec event "SLA_TIMEOUT") as [->|_].
  { destruct s; simpl; try discriminate.
    intros [= <- <- <-] _. split; [reflexivity | discriminate]. }
  destruct (String.eqb_spec event "DEAD_LETTER") as [->|_].
  { destruct (awaits_cutter s) eqn:Ha; [|discriminate].
    intros [= <- <- <-] _. rewrite State_eqb_refl. split; [reflexivity|].
    intros _. destruct s; try discriminate; reflexivity. }
  destruct (next_state s event) as [t|] eqn:Hn; [|discriminate].
  destruct (State_eqb s VALIDATION && String.eqb event "Validation Fail") eqn:Hv.
  - intros [= <- <- <-] _. rewrite State_eqb_refl. split; [reflexivity|].
    intros _. apply andb_prop in Hv. destruct Hv as [Hs He].
    apply State_eqb_eq in Hs. apply String.eqb_eq in He. subst.
    vm_compute in Hn. injection Hn as <-. reflexivity.
  - intros [= <- <- <-] _. rewrite State_eqb_refl. split; [reflexivity | discriminate].
Qed.

(** *** The invariant of the engine *)

Lemma consistent_configured attempts : consistent (configured attempts).
Proof. intros id. split; reflexivity. Qed.

Lemma consistent_create e id : consistent e -> consistent (create_order e id).
Proof.
  intros He id'. unfold create_order.
  destruct (order_state (orders e) id) as [s|] eqn:Hid; [apply He|].
  simpl. rewrite order_state_app.
  rewrite (history_same_log e) by reflexivity.
  specialize (He id').
  destruct (order_state (orders e) id') as [s'|]; [exact He|].
  destruct He as [Hh Hr].
  destruct (String.eqb id' id); [|now split].
  rewrite Hh, Hr. repeat split. discriminate.
Qed.

Lemma consistent_transition e id event payload now :
  consistent e -> consistent (snd (transition e id event payload now)).
Proof.
  intros He. unfold transition.
  destruct (order_state (orders e) id) as [s|] eqn:Hid; [|exact He].
  destruct (already_applied e id event); [exact He|].
  destruct (apply_event _ s _ _ event) as [[[s' review'] failed']|] eqn:Hstep;
    [|exact He].
  simpl. intros id'. simpl. rewrite order_state_set, in_review_set.
  rewrite (history_append e _ (mkRecord id s s' event now payload)) by reflexivity.
  simpl order_id.
  pose proof (He id') as Hid'.
  destruct (String.eqb_spec id id') as [<-|Hne].
  - rewrite Hid in *. destruct Hid' as [Hwalk [Hend Hrev]].
    destruct (apply_event_legal _ _ _ _ _ _ _ _ id now payload Hstep Hrev)
      as [Hlegal Hrev'].
    rewrite legal_walk_snoc, walk_end_snoc. simpl from_state. simpl to_state.
    rewrite Hwalk, Hend, State_eqb_refl, Hlegal.
    repeat split. exact Hrev'.
  - rewrite app_nil_r. destruct (order_state (orders e) id'); exact Hid'.
Qed.

Lemma consistent_exec e c : consistent e -> consistent (exec e c).
Proof.
  destruct c; simpl; [apply consistent_create | apply consistent_transition].
Qed.

Lemma consistent_fold cs e : consistent e -> consistent (fold_left exec cs e).
Proof.
  revert e. induction cs as [|c cs IH]; simpl; intros e He; [exact He|].
  apply IH. now apply consistent_exec.
Qed.

Lemma consistent_history e id :
  consistent e -> legal_walk initial_state (history e id) = true.
Proof.
  intros He. specialize (He id).
  destruct (order_state (orders e) id); [apply He|].
  destruct He as [-> _]. reflexivity.
Qed.

Lemma consistent_current e id s :
  consistent e -> order_state (orders e) id = Some s ->
  walk_end initial_state (history e id) = s
  /\ (in_review (manual_review e) id = true -> reviewable s = true).
Proof.
  intros He Hs. specialize (He id). rewrite Hs in He. tauto.
Qed.

(** What [legal_walk] says of a history, record by record. *)
Lemma legal_walk_chain s h :
  legal_walk s h = true ->
  (forall r, hd_error h = Some r -> from_state r = s)
  /\ (forall h1 r1 r2 h2, h = h1 ++ r1 :: r2 :: h2 -> to_state r1 = from_state r2)
  /\ (forall r, In r h -> legal_record r = true).
Proof.
  revert s. induction h as [|r h IH]; intros s Hw.
  - split; [discriminate|]. split; [|intros r []].
    intros [|? ?] ? ? ? H; discriminate.
  - simpl in Hw. apply andb_prop in Hw. destruct Hw as [Hw Hrest].
    apply andb_prop in Hw. destruct Hw as [Hfrom Hedge].
    apply State_eqb_eq in Hfrom.
    destruct (IH _ Hrest) as [Hhd [Hchain Hedges]].
    split; [|split].
    + now intros r' [= <-].
    + intros [|r0 h1] r1 r2 h2 Heq; simpl in Heq; injection Heq as -> ->.
      * symmetry. now apply Hhd.
      * eapply Hchain. reflexivity.
    + intros r' [<-|Hin]; [assumption | now apply Hedges].
Qed.

(** C4, as stated, fails: an order that sat in RECEIVED until the SLA
    monitor timed it out has a record from RECEIVED to CANCELLED, and the
    transition matrix has no row from the one to the other. *)
Lemma timeout_leaves_the_matrix :
  history (order_with "SDS-20260201-0001-A" ["POST /orders"; "SLA_TIMEOUT"])
          "SDS-20260201-0001-A"
  = [ mkRecord "SDS-20260201-0001-A" ORDER_CREATED RECEIVED "POST /orders" 1 "";
      mkRecord "SDS-20260201-0001-A" RECEIVED CANCELLED "SLA_TIMEOUT" 2 "" ]
  /\ edge RECEIVED CANCELLED = false.
Proof. split; reflexivity. Qed.

(** C4, amended.  Whatever the bound on validation attempts, whatever
    orders are created and whatever transitions are asked for, the history
    of every order is a legal walk: its first record leaves the initial
    state, each record starts in the state the previous record led to, and
    each record is a row of the transition matrix under its trigger, or a
    cancellation from a pre-terminal state, or the timeout of RECEIVED
    into CANCELLED, or a dead letter or a manual intervention that leaves
    the order in its state; and the walk ends in the order's current
    state. *)
Theorem history_is_legal_walk (attempts : nat) (cs : list Command) (id : string) :
  (forall r, hd_error (history (run_with attempts cs) id) = Some r ->
     from_state r = initial_state)
  /\ (forall h1 r1 r2 h2, history (run_with attempts cs) id = h1 ++ r1 :: r2 :: h2 ->
        to_state r1 = from_state r2)
  /\ (forall r, In r (history (run_with attempts cs) id) ->
        In (mkRow (from_state r) (to_state r) (trigger r)) transition_matrix
        \/ (trigger r = "Cancel"
            /\ pre_terminal (from_state r) = true /\ to_state r = CANCELLED)
        \/ (trigger r = "SLA_TIMEOUT"
            /\ from_state r = RECEIVED /\ to_state r = CANCELLED)
        \/ (trigger r = "DEAD_LETTER"
            /\ awaits_cutter (from_state r) = true /\ to_state r = from_state r)
        \/ (trigger r = "MANUAL_INTERVENTION"
            /\ reviewable (from_state r) = true /\ to_state r = from_state r))
  /\ (forall s, order_state (orders (run_with attempts cs)) id = Some s ->
        walk_end initial_state (history (run_with attempts cs) id) = s).
Proof.
  assert (He : consistent (run_with attempts cs))
    by apply consistent_fold, consistent_configured.
  destruct (legal_walk_chain _ _ (consistent_history _ id He)) as [Hhd [Hchain Hrec]].
  repeat split; try assumption.
  - intros r Hr. apply legal_record_cases, Hrec, Hr.
  - intros s Hs. now apply consistent_current.
Qed.

(** The scenario of the validation retries: an order whose validation
    fails three times is back in PROCESSING and in manual review, where a
    new validation is an illegal transition until a manual intervention
    has ended the review. *)
Lemma validation_retries_then_manual_review :
  order_state (orders (order_with "A" validation_fails)) "A" = Some PROCESSING
  /\ in_review (manual_review (order_with "A" validation_fails)) "A" = true
  /\ fst (transition (order_with "A" validation_fails) "A" "Start Validation" "" 9)
     = inl IllegalTransition
  /\ fst (transition (order_with "A" (validation_fails ++ ["MANUAL_INTERVENTION"]))
                     "A" "Start Validation" "" 10)
     = inr VALIDATION
  /\ order_state (orders (order_with "A" (validation_fails ++ ["Cancel"]))) "A"
     = Some CANCELLED.
Proof. repeat split. Qed.

(** The dead letter of the work queue: the order stays in CUTTING, in
    manual review. *)
Lemma dead_letter_is_escalated :
  order_state (orders (order_with "A" (to_cutting ++ ["DEAD_LETTER"]))) "A"
  = Some CUTTING
  /\ in_review (manual_review (order_with "A" (to_cutting ++ ["DEAD_LETTER"]))) "A"
     = true
  /\ fst (transition (order_with "A" (to_cutting ++ ["DEAD_LETTER"]))
                     "A" "Direct Cut" "" 9)
     = inl IllegalTransition.
Proof. repeat split. Qed.

(** *** Replays *)





(** *** The transition matrix *)

Lemma successors_edge s s' : In s' (successors s) -> edge s s' = true.
Proof.
  unfold successors, edge. rewrite in_map_iff.
  intros [r [<- Hr]]. apply filter_In in Hr. destruct Hr as [Hin Hfrom].
  apply existsb_exists. exists r. split; [assumption|].
  now rewrite Hfrom, State_eqb_refl.
Qed.

Lemma reaches_path n : forall s t, reaches n s t = true -> path s t.
Proof.
  induction n as [|n IH]; intros s t; simpl.
  - rewrite orb_false_r. intros H. apply State_eqb_eq in H. subst. constructor.
  - intros H. apply orb_prop in H. destruct H as [H|H].
    + apply State_eqb_eq in H. subst. constructor.
    + apply existsb_exists in H. destruct H as [s' [Hs' Hr]].
      econstructor; [apply successors_edge; eassumption | now apply IH].
Qed.

(** X15.  The transition matrix is deterministic: the event of each row,
    in the state the row starts from, leads to the state the row names.
    The states no row leaves are the four of PICKED_UP, DELIVERED,
    COMPLETED and CLOSED; PATTERN_CUT is not among them. *)
Theorem matrix_deterministic (r : Row) :
  In r transition_matrix ->
  next_state (row_from r) (row_trigger r) = Some (row_to r)
  /\ (forall s, terminal s = true <-> In s [PICKED_UP; DELIVERED; COMPLETED; CLOSED]).
Proof.
  intros Hr. split.
  - simpl in Hr. repeat (destruct Hr as [<-|Hr]; [reflexivity|]). contradiction.
  - intros s. destruct s; simpl; split; intros H; try discriminate; try reflexivity;
      try tauto; repeat (destruct H as [H|H]; [discriminate|]); contradiction.
Qed.

Lemma matrix_deterministic_witness :
  next_state RECEIVED "EYESON Scan" = Some SCAN_RECEIVED.
Proof.
  refine (proj1 (matrix_deterministic (mkRow RECEIVED SCAN_RECEIVED "EYESON Scan") _)).
  simpl. tauto.
Defined.

(** X16.  Every state of the matrix can be reached from ORDER_CREATED,
    and from every state a state that no row leaves can be reached: the
    graph has no unreachable state and no dead end short of the end. *)
Theorem matrix_connected (s : State) :
  path initial_state s /\ exists t, terminal t = true /\ path s t.
Proof.
  split.
  - apply (reaches_path 24). destruct s; vm_compute; reflexivity.
  - destruct s;
      first [ exists PICKED_UP; split; [reflexivity|];
              apply (reaches_path 24); vm_compute; reflexivity
            | exists DELIVERED; split; [reflexivity|];
              apply (reaches_path 24); vm_compute; reflexivity
            | exists COMPLETED; split; [reflexivity|];
              apply (reaches_path 24); vm_compute; reflexivity
            | exists CLOSED; split; [reflexivity|];
              apply (reaches_path 24); vm_compute; reflexivity ].
Qed.

End EngineProofs.

(** * Properties of the work queue *)

Module QueueProofs.
Import WorkQueue.
Open Scope list_scope.
Open Scope nat_scope.

(** *** The job table *)


Lemma find_job_In id js j : find_job id js = Some j -> In j js.
Proof.
  induction js as [|j0 js IH]; simpl; [discriminate|].
  destruct (job_id j0 =? id); [intros [= <-]; now left | right; now apply IH].
Qed.

Lemma find_job_app id js j :
  find_job id (js ++ [j])
  = match find_job id js with
    | Some x => Some x
    | None => if job_id j =? id then Some j else None
    end.
Proof.
  induction js as [|j0 js IH]; simpl; [reflexivity|].
  destruct (job_id j0 =? id); [reflexivity | exact IH].
Qed.

Lemma find_job_update id id' f js :
  (forall j, job_id (f j) = job_id j) ->
  find_job id (update id' f js)
  = option_map (fun j => if job_id j =? id' then f j else j) (find_job id js).
Proof.
  intros Hf. unfold update. induction js as [|j0 js IH]; simpl; [reflexivity|].
  assert (Hid : job_id (if job_id j0 =? id' then f j0 else j0) = job_id j0)
    by (destruct (job_id j0 =? id'); [apply Hf | reflexivity]).
  rewrite Hid. destruct (job_id j0 =? id); [reflexivity | exact IH].
Qed.



Lemma effect_id op j : job_id (effect op j) = job_id j.
Proof. now destruct op. Qed.


Lemma apply_entry_update e js :
  (forall job, operation e <> ENQUEUE job) ->
  apply_entry js e = update (entry_job e) (effect (operation e)) js.
Proof.
  unfold apply_entry. destruct (operation e); try reflexivity.
  intros H. now elim (H job).
Qed.

(** *** Replay *)



Lemma wal_ok_from_app w1 :
  forall seen w2,
    wal_ok_from seen (w1 ++ w2)
    = wal_ok_from seen w1 && wal_ok_from (seen_after seen w1) w2.
Proof.
  induction w1 as [|e w1 IH]; intros seen w2; simpl; [reflexivity|].
  destruct (operation e); rewrite IH; now rewrite ?andb_assoc.
Qed.

(** The step of [seen_after_known] for an entry that rewrites a job. *)
Ltac seen_update_case e js IH Hseen Hok Hop :=
  let Hrest := fresh "Hrest" in
  let Hne := fresh "Hne" in
  apply andb_prop in Hok; destruct Hok as [_ Hrest];
  assert (Hne : forall job, operation e <> ENQUEUE job)
    by (rewrite Hop; discriminate);
  apply (IH (apply_entry js e)); [|exact Hrest];
  intros i; rewrite Hseen, (apply_entry_update e js Hne); unfold known;
  rewrite find_job_update by apply effect_id;
  now destruct (find_job i js).

Lemma seen_after_known w :
  forall js seen,
    (forall id, existsb (Nat.eqb id) seen = known id js) ->
    wal_ok_from seen w = true ->
    forall id, existsb (Nat.eqb id) (seen_after seen w) = known id (replay w js).
Proof.
  induction w as [|e w IH]; intros js seen Hseen Hok; [exact Hseen|].
  simpl in Hok. unfold replay, seen_after. simpl fold_left.
  fold (replay w (apply_entry js e)).
  revert Hok. destruct (operation e) as [job| | |n|] eqn:Hop; intros Hok.
  - apply andb_prop in Hok. destruct Hok as [Hok Hrest].
    apply andb_prop in Hok. destruct Hok as [Hok _].
    apply andb_prop in Hok. destruct Hok as [Hjob _].
    apply Nat.eqb_eq in Hjob.
    apply (IH (apply_entry js e)); [|exact Hrest].
    intros i. simpl. unfold apply_entry. rewrite Hop. unfold known.
    rewrite find_job_app. specialize (Hseen i). unfold known in Hseen. rewrite Hjob.
    destruct (find_job i js).
    + rewrite Hseen. apply orb_true_r.
    + rewrite Hseen, orb_false_r, Nat.eqb_sym. now destruct (entry_job e =? i).
  - seen_update_case e js IH Hseen Hok Hop.
  - seen_update_case e js IH Hseen Hok Hop.
  - seen_update_case e js IH Hseen Hok Hop.
  - seen_update_case e js IH Hseen Hok Hop.
Qed.

Lemma seen_after_bound w :
  forall seen n,
    (forall i, In i seen -> i < n) ->
    (forall e, In e w -> entry_job e < n) ->
    forall i, In i (seen_after seen w) -> i < n.
Proof.
  induction w as [|e w IH]; intros seen n Hseen Hw i; simpl; [apply Hseen|].
  apply IH.
  - destruct (operation e); try exact Hseen.
    intros x [<-|Hx]; [apply Hw; now left | now apply Hseen].
  - intros e' He'. apply Hw. now right.
Qed.

Lemma existsb_eqb_In i l : existsb (Nat.eqb i) l = true <-> In i l.
Proof.
  rewrite existsb_exists. split.
  - intros [x [Hx Heq]]. apply Nat.eqb_eq in Heq. now subst.
  - intros Hi. exists i. split; [assumption | apply Nat.eqb_refl].
Qed.

Lemma replay_snoc w e js : replay (w ++ [e]) js = apply_entry (replay w js) e.
Proof. unfold replay. now rewrite fold_left_app. Qed.

Lemma In_known j js : In j js -> known (job_id j) js = true.
Proof.
  unfold known. induction js as [|j0 js IH]; simpl; [intros []|].
  intros [->|Hin].
  - now rewrite Nat.eqb_refl.
  - destruct (job_id j0 =? job_id j); [reflexivity | now apply IH].
Qed.

(** *** Selection *)

Lemma pick_fold js :
  forall best j,
    fold_left pick js best = Some j ->
    best = Some j \/ (In j js /\ is_pending j = true).
Proof.
  induction js as [|j0 js IH]; intros best j; simpl; [now left|].
  intros H. destruct (IH _ _ H) as [Hb|[Hin Hp]]; [|right; split; [now right | exact Hp]].
  unfold pick in Hb. destruct (is_pending j0) eqn:Hp0; [|now left].
  destruct best as [b|].
  - destruct (before j0 b).
    + injection Hb as <-. right. split; [now left | exact Hp0].
    + now left.
  - injection Hb as <-. right. split; [now left | exact Hp0].
Qed.

Lemma next_job_pending js j :
  next_job js = Some j -> In j js /\ is_pending j = true.
Proof.
  intros H. destruct (pick_fold _ _ _ H) as [Hb|Hj]; [discriminate | exact Hj].
Qed.

(** *** The invariant of the queue *)

Lemma queue_ok_empty : queue_ok empty_queue.
Proof.
  constructor; simpl; try reflexivity; try (intros ? []). constructor.
Qed.

Lemma known_seen q id :
  queue_ok q -> known id (jobs q) = existsb (Nat.eqb id) (seen_after [] (wal q)).
Proof.
  intros [Hjobs Hwal _ _ _]. rewrite Hjobs. symmetry.
  apply seen_after_known; [reflexivity | exact Hwal].
Qed.

Lemma known_bound q id : queue_ok q -> known id (jobs q) = true -> id < List.length (wal q).
Proof.
  intros Hq Hk. rewrite (known_seen q id Hq) in Hk. apply existsb_eqb_In in Hk.
  apply (seen_after_bound (wal q) [] (List.length (wal q))); try assumption.
  - intros ? [].
  - apply (ok_ids q Hq).
Qed.

Lemma map_id_update id f js :
  (forall j, job_id (f j) = job_id j) -> map job_id (update id f js) = map job_id js.
Proof.
  intros Hf. unfold update. rewrite map_map. apply map_ext.
  intros j. destruct (job_id j =? id); [apply Hf | reflexivity].
Qed.

Lemma In_update id f js j :
  In j (update id f js) -> exists j0, In j0 js /\ (j = j0 \/ j = f j0).
Proof.
  unfold update. rewrite in_map_iff. intros [j0 [Hj Hin]].
  exists j0. split; [assumption|].
  destruct (job_id j0 =? id); [now right | now left].
Qed.

Lemma effect_enqueued_at op j : enqueued_at (effect op j) = enqueued_at j.
Proof. now destruct op. Qed.

Lemma record_update_ok q id op :
  queue_ok q -> known id (jobs q) = true -> (forall job, op <> ENQUEUE job) ->
  queue_ok (record q id op).
Proof.
  intros Hq Hk Hop. pose proof Hq as [Hjobs Hwal Hids Hnd Hkeys].
  assert (Hne : forall job, operation (mkEntry (List.length (wal q)) id op) <> ENQUEUE job)
    by exact Hop.
  constructor; unfold record; simpl wal; simpl jobs.
  - now rewrite replay_snoc, <- Hjobs.
  - unfold wal_ok. rewrite wal_ok_from_app. fold (wal_ok (wal q)). rewrite Hwal.
    simpl. rewrite <- (known_seen q id Hq), Hk.
    destruct op; try reflexivity. now elim (Hop job).
  - intros e He. rewrite length_app. simpl. apply in_app_or in He.
    destruct He as [He|[<-|[]]].
    + specialize (Hids e He). lia.
    + simpl. pose proof (known_bound q id Hq Hk). lia.
  - rewrite (apply_entry_update _ _ Hne). simpl.
    rewrite map_id_update by apply effect_id. exact Hnd.
  - rewrite (apply_entry_update _ _ Hne). simpl. intros j Hj.
    apply In_update in Hj. destruct Hj as [j0 [Hin [->| ->]]].
    + now apply Hkeys.
    + rewrite effect_enqueued_at, effect_id. now apply Hkeys.
Qed.

Lemma known_map_id id js : known id js = true <-> In id (map job_id js).
Proof.
  unfold known. induction js as [|j0 js IH]; simpl.
  - split; [discriminate | intros []].
  - destruct (Nat.eqb_spec (job_id j0) id) as [->|Hne].
    + split; [now left | reflexivity].
    + rewrite IH. split; [now right | intros [H|H]; [contradiction | exact H]].
Qed.

Lemma enqueue_ok q oid pl p : queue_ok q -> queue_ok (snd (enqueue q oid pl p)).
Proof.
  intros Hq. pose proof Hq as [Hjobs Hwal Hids Hnd Hkeys].
  set (n := List.length (wal q)).
  assert (Hfresh : known n (jobs q) = false).
  { destruct (known n (jobs q)) eqn:Hk; [|reflexivity].
    pose proof (known_bound q n Hq Hk). unfold n in *. lia. }
  constructor; unfold enqueue, record; simpl wal; simpl jobs; fold n.
  - now rewrite replay_snoc, <- Hjobs.
  - unfold wal_ok. rewrite wal_ok_from_app. fold (wal_ok (wal q)). rewrite Hwal.
    simpl. rewrite Nat.eqb_refl, <- (known_seen q n Hq), Hfresh. reflexivity.
  - intros e He. rewrite length_app. simpl. apply in_app_or in He.
    destruct He as [He|[<-|[]]].
    + specialize (Hids e He). lia.
    + simpl. fold n. lia.
  - unfold apply_entry. simpl. rewrite map_app. simpl.
    apply NoDup_app; [exact Hnd | repeat constructor; intros [] |].
    intros x Hx [<-|[]]. apply known_map_id in Hx. congruence.
  - unfold apply_entry. simpl. intros j Hj. apply in_app_or in Hj.
    destruct Hj as [Hj|[<-|[]]]; [now apply Hkeys | reflexivity].
Qed.

Lemma dequeue_ok q : queue_ok q -> queue_ok (snd (dequeue q)).
Proof.
  intros Hq. unfold dequeue.
  destruct (next_job (jobs q)) as [j|] eqn:Hn; [|exact Hq].
  simpl. apply record_update_ok; [exact Hq | | discriminate].
  apply In_known. now apply next_job_pending.
Qed.

Lemma find_job_known id js j : find_job id js = Some j -> known id js = true.
Proof. unfold known. now intros ->. Qed.

Lemma ack_ok q id : queue_ok q -> queue_ok (ack q id).
Proof.
  intros Hq. unfold ack. destruct (find_job id (jobs q)) as [j|] eqn:Hf; [|exact Hq].
  destruct (is_in_flight j); [|exact Hq].
  apply record_update_ok; [exact Hq | eapply find_job_known; eassumption | discriminate].
Qed.

Lemma fail_ok m q id : queue_ok q -> queue_ok (fail m q id).
Proof.
  intros Hq. unfold fail. destruct (find_job id (jobs q)) as [j|] eqn:Hf; [|exact Hq].
  destruct (is_in_flight j); [|exact Hq].
  destruct (attempt_count j <? m);
    (apply record_update_ok;
     [exact Hq | eapply find_job_known; eassumption | discriminate]).
Qed.

Lemma exec_ok m q c : queue_ok q -> queue_ok (exec m q c).
Proof.
  destruct c; simpl;
    [apply enqueue_ok | apply dequeue_ok | apply ack_ok | apply fail_ok].
Qed.

Lemma fold_exec_ok m cs q : queue_ok q -> queue_ok (fold_left (exec m) cs q).
Proof.
  revert q. induction cs as [|c cs IH]; simpl; intros q Hq; [exact Hq|].
  apply IH. now apply exec_ok.
Qed.

Lemma run_ok m cs : queue_ok (run m cs).
Proof. apply fold_exec_ok, queue_ok_empty. Qed.

(** *** Recovery *)




(** *** Priority order *)

Ltac before_nat :=
  unfold before;
  repeat match goal with
         | |- context [?a <? ?b] => destruct (Nat.ltb_spec a b)
         | |- context [?a =? ?b] => destruct (Nat.eqb_spec a b)
         | H : context [?a <? ?b] |- _ => destruct (Nat.ltb_spec a b)
         | H : context [?a =? ?b] |- _ => destruct (Nat.eqb_spec a b)
         end;
  simpl in *; try discriminate; try reflexivity; try lia.

Lemma before_trans a b c :
  before a b = true -> before b c = true -> before a c = true.
Proof. intros H1 H2. revert H1 H2. before_nat. Qed.

Lemma before_neg_trans a b c :
  before a b = false -> before b c = false -> before a c = false.
Proof. intros H1 H2. revert H1 H2. before_nat. Qed.

Lemma before_total a b :
  before a b = false -> before b a = false -> enqueued_at a = enqueued_at b.
Proof. intros H1 H2. revert H1 H2. before_nat. Qed.

Lemma pick_fold_min js :
  forall best b,
    fold_left pick js best = Some b ->
    (forall j, In j js -> is_pending j = true -> before j b = false)
    /\ (forall b0, best = Some b0 -> before b0 b = false).
Proof.
  induction js as [|j0 js IH]; intros best b; simpl.
  - intros ->. split; [intros j [] |].
    intros b0 [= ->]. unfold before. rewrite Nat.ltb_irrefl, Nat.ltb_irrefl.
    now rewrite andb_false_r.
  - intros H. destruct (IH _ _ H) as [Hjs Hbest]. unfold pick in Hbest.
    destruct (is_pending j0) eqn:Hp0.
    + destruct best as [b0|].
      * destruct (before j0 b0) eqn:Hb.
        -- pose proof (Hbest j0 eq_refl) as Hj0. split.
           ++ intros j [<-|Hin] Hp; [exact Hj0 | now apply Hjs].
           ++ intros b1 [= <-].
              destruct (before b0 b) eqn:Hb0; [|reflexivity].
              rewrite (before_trans _ _ _ Hb Hb0) in Hj0. discriminate.
        -- pose proof (Hbest b0 eq_refl) as Hb0. split.
           ++ intros j [<-|Hin] Hp; [|now apply Hjs].
              eapply before_neg_trans; eassumption.
           ++ now intros b1 [= <-].
      * pose proof (Hbest j0 eq_refl) as Hj0. split; [|discriminate].
        intros j [<-|Hin] Hp; [exact Hj0 | now apply Hjs].
    + split; [|exact Hbest].
      intros j [<-|Hin] Hp; [congruence | now apply Hjs].
Qed.

Lemma pick_fold_none js :
  forall best,
    fold_left pick js best = None ->
    best = None /\ forall j, In j js -> is_pending j = false.
Proof.
  induction js as [|j0 js IH]; intros best; simpl.
  - intros ->. split; [reflexivity | intros j []].
  - intros H. destruct (IH _ H) as [Hp Hjs]. unfold pick in Hp.
    destruct (is_pending j0) eqn:Hp0.
    + destruct best as [b0|]; [destruct (before j0 b0)|]; discriminate.
    + split; [exact Hp|]. intros j [<-|Hin]; [exact Hp0 | now apply Hjs].
Qed.

Lemma next_job_none_pending q : next_job (jobs q) = None -> pending_jobs q = [].
Proof.
  intros H. apply pick_fold_none in H. destruct H as [_ H].
  unfold pending_jobs. induction (jobs q) as [|j js IH]; simpl; [reflexivity|].
  rewrite (H j (or_introl eq_refl)). apply IH. intros j' Hj'. apply H. now right.
Qed.

Lemma pending_after_dequeue id js :
  filter is_pending (update id (effect DEQUEUE) js)
  = filter (fun j => negb (job_id j =? id)) (filter is_pending js).
Proof.
  unfold update. induction js as [|j js IH]; [reflexivity|].
  cbn [map filter]. rewrite IH.
  destruct (job_id j =? id) eqn:Hid.
  - change (is_pending (effect DEQUEUE j)) with false. cbn iota.
    destruct (is_pending j); cbn [filter negb]; [rewrite Hid|]; reflexivity.
  - destruct (is_pending j); cbn [filter negb]; [rewrite Hid|]; reflexivity.
Qed.

Lemma NoDup_map_inj {A B} (f : A -> B) l a b :
  NoDup (map f l) -> In a l -> In b l -> f a = f b -> a = b.
Proof.
  induction l as [|x l IH]; simpl; [intros _ []|].
  intros Hnd Ha Hb Hf. inversion Hnd as [|? ? Hx Hnd']; subst.
  destruct Ha as [->|Ha], Hb as [->|Hb]; try reflexivity.
  - elim Hx. rewrite Hf. now apply in_map.
  - elim Hx. rewrite <- Hf. now apply in_map.
  - now apply IH.
Qed.

Lemma take_out_permutation l b :
  NoDup (map job_id l) -> In b l ->
  Permutation l (b :: filter (fun j => negb (job_id j =? job_id b)) l).
Proof.
  induction l as [|x l IH]; simpl; [intros _ []|].
  intros Hnd Hb. inversion Hnd as [|? ? Hx Hnd']; subst.
  destruct Hb as [->|Hb].
  - rewrite Nat.eqb_refl. simpl. apply perm_skip.
    rewrite forallb_filter_id; [reflexivity|].
    apply forallb_forall. intros j Hj. apply negb_true_iff, Nat.eqb_neq.
    intros Heq. apply Hx. rewrite <- Heq. now apply in_map.
  - destruct (Nat.eqb_spec (job_id x) (job_id b)) as [Heq|Hne]; simpl.
    + elim Hx. rewrite Heq. now apply in_map.
    + eapply perm_trans; [apply perm_skip, IH; assumption | apply perm_swap].
Qed.

Lemma NoDup_map_filter {A B} (f : A -> B) (p : A -> bool) l :
  NoDup (map f l) -> NoDup (map f (filter p l)).
Proof.
  induction l as [|x l IH]; simpl; [trivial|].
  intros Hnd. inversion Hnd as [|? ? Hx Hnd']; subst.
  destruct (p x); simpl; [|now apply IH].
  constructor; [|now apply IH].
  intros Hin. apply Hx. apply in_map_iff in Hin. destruct Hin as [y [Hy Hin]].
  apply filter_In in Hin. rewrite <- Hy. apply in_map. tauto.
Qed.

Lemma pending_after_record q id :
  pending_jobs (record q id DEQUEUE)
  = filter (fun j => negb (job_id j =? id)) (pending_jobs q).
Proof. unfold pending_jobs. apply (pending_after_dequeue id (jobs q)). Qed.

(** *** Draining *)

Lemma drain_spec n :
  forall q,
    queue_ok q -> List.length (pending_jobs q) <= n ->
    Permutation (pending_jobs q) (drain n q)
    /\ StronglySorted (fun a b => before a b = true) (drain n q).
Proof.
  induction n as [|n IH]; intros q Hq Hlen.
  - simpl. destruct (pending_jobs q); [split; constructor | simpl in Hlen; lia].
  - simpl. unfold dequeue. destruct (next_job (jobs q)) as [b|] eqn:Hn.
    + destruct (next_job_pending _ _ Hn) as [Hin Hp].
      assert (HbP : In b (pending_jobs q)) by (apply filter_In; now split).
      assert (Hq' : queue_ok (record q (job_id b) DEQUEUE))
        by (apply record_update_ok; [exact Hq | now apply In_known | discriminate]).
      assert (Hperm : Permutation (pending_jobs q)
                                  (b :: pending_jobs (record q (job_id b) DEQUEUE))).
      { rewrite pending_after_record. apply take_out_permutation; [|exact HbP].
        apply NoDup_map_filter, (ok_nodup _ Hq). }
      assert (Hlen' : List.length (pending_jobs (record q (job_id b) DEQUEUE)) <= n).
      { apply Permutation_length in Hperm. simpl in Hperm. lia. }
      destruct (IH _ Hq' Hlen') as [Hperm' Hsorted'].
      split.
      * eapply perm_trans; [exact Hperm | apply perm_skip, Hperm'].
      * constructor; [exact Hsorted'|]. apply Forall_forall. intros j Hj.
        apply (Permutation_in _ (Permutation_sym Hperm')) in Hj.
        rewrite pending_after_record in Hj. apply filter_In in Hj.
        destruct Hj as [Hj Hne]. apply filter_In in Hj. destruct Hj as [Hjin Hjp].
        apply negb_true_iff, Nat.eqb_neq in Hne.
        destruct (pick_fold_min _ _ _ Hn) as [Hmin _].
        specialize (Hmin j Hjin Hjp).
        destruct (before b j) eqn:Hbj; [reflexivity|]. exfalso. apply Hne.
        rewrite <- (ok_keys _ Hq j Hjin), <- (ok_keys _ Hq b Hin).
        now apply before_total.
    + rewrite (next_job_none_pending q Hn). split; constructor.
Qed.

(** C6.  Whatever has been enqueued, taken, acknowledged or retried so
    far, draining the queue hands out exactly its pending jobs, each once,
    and in such an order that every job handed out earlier has a strictly
    higher priority than a later one or, at equal priority, a smaller
    enqueue sequence number.  Jobs enqueued as normal, rush, low, high
    are drained as rush, high, normal, low. *)
Theorem drain_in_priority_order (max_attempts : nat) (cs : list Command) :
  Permutation (pending_jobs (run max_attempts cs))
              (drain (List.length (jobs (run max_attempts cs))) (run max_attempts cs))
  /\ StronglySorted (fun a b => before a b = true)
                    (drain (List.length (jobs (run max_attempts cs)))
                           (run max_attempts cs))
  /\ map priority (drain 4 (enqueue_all [normal; rush; low; high]))
     = [rush; high; normal; low].
Proof.
  destruct (drain_spec (List.length (jobs (run max_attempts cs)))
                       (run max_attempts cs) (run_ok _ _)) as [Hperm Hsorted].
  - unfold pending_jobs. apply filter_length_le.
  - repeat split; [exact Hperm | exact Hsorted].
Qed.

End QueueProofs.

(** * Properties of the scan store *)

Module StoreProofs.
Import ScanStore.
Open Scope list_scope.
Open Scope Z_scope.

Lemma indexOf_range l x : -1 <= indexOf l x < Z.of_nat (List.length l).
Proof.
  induction l as [|y l IH]; simpl List.length; simpl indexOf; [lia|].
  destruct (ScanStep_eq_dec y x); [lia|].
  destruct (Z.ltb_spec (indexOf l x) 0); lia.
Qed.

Lemma indexOf_In l x : In x l <-> 0 <= indexOf l x.
Proof.
  induction l as [|y l IH]; simpl.
  - split; [intros [] | lia].
  - destruct (ScanStep_eq_dec y x) as [->|Hne].
    + split; [lia | now left].
    + destruct (Z.ltb_spec (indexOf l x) 0) as [Hlt|Hge].
      * split; [|lia]. intros [H|H]; [contradiction|]. apply IH in H. lia.
      * split; [lia|]. intros _. right. apply IH. lia.
Qed.

Lemma at_index_cons y l i :
  0 <= i -> at_index (y :: l) (i + 1) = at_index l i.
Proof.
  intros Hi. unfold at_index.
  destruct (Z.ltb_spec (i + 1) 0); [lia|].
  destruct (Z.ltb_spec i 0); [lia|].
  replace (Z.to_nat (i + 1)) with (S (Z.to_nat i)) by lia. reflexivity.
Qed.

Lemma at_index_indexOf l x : In x l -> at_index l (indexOf l x) = Some x.
Proof.
  induction l as [|y l IH]; simpl; [intros []|].
  intros Hin. destruct (ScanStep_eq_dec y x) as [->|Hne]; [reflexivity|].
  destruct Hin as [H|H]; [contradiction|].
  pose proof (proj1 (indexOf_In l x) H) as Hge.
  destruct (Z.ltb_spec (indexOf l x) 0); [lia|].
  rewrite at_index_cons by assumption. now apply IH.
Qed.

Lemma at_index_In l i x : at_index l i = Some x -> In x l.
Proof.
  unfold at_index. destruct (i <? 0); [discriminate|]. apply nth_error_In.
Qed.

Lemma indexOf_at_index l :
  NoDup l -> forall i x, at_index l i = Some x -> indexOf l x = i.
Proof.
  induction l as [|y l IH]; intros Hnd i x.
  - unfold at_index. destruct (i <? 0); [discriminate|].
    now destruct (Z.to_nat i).
  - inversion Hnd as [|? ? Hy Hnd']; subst.
    destruct (Z.eq_dec i 0) as [->|Hi].
    + unfold at_index. simpl. intros [= ->].
      destruct (ScanStep_eq_dec x x); [reflexivity | contradiction].
    + intros Hat.
      assert (Hpos : 0 <= i - 1).
      { unfold at_index in Hat. destruct (Z.ltb_spec i 0); [discriminate | lia]. }
      replace i with ((i - 1) + 1) in Hat by lia.
      rewrite at_index_cons in Hat by assumption.
      pose proof (at_index_In _ _ _ Hat) as Hin.
      simpl. destruct (ScanStep_eq_dec y x) as [->|Hne]; [contradiction|].
      rewrite (IH Hnd' _ _ Hat).
      destruct (Z.ltb_spec (i - 1) 0); lia.
Qed.

Lemma at_index_defined l i :
  0 <= i < Z.of_nat (List.length l) -> exists x, at_index l i = Some x.
Proof.
  intros Hi. unfold at_index. destruct (Z.ltb_spec i 0); [lia|].
  destruct (nth_error l (Z.to_nat i)) as [x|] eqn:Hn; [eauto|].
  apply nth_error_None in Hn. lia.
Qed.

Lemma setStep_current st : setStep (currentStep st) st = st.
Proof. now destruct st. Qed.

Lemma setStep_setStep a b st : setStep a (setStep b st) = setStep a st.
Proof. reflexivity. Qed.

Lemma position_goTo st i :
  NoDup (steps st) -> 0 <= i < Z.of_nat (List.length (steps st)) ->
  position (goTo i st) = i /\ steps (goTo i st) = steps st.
Proof.
  intros Hnd Hi. unfold goTo, position.
  destruct (at_index_defined _ _ Hi) as [x Hx]. rewrite Hx. simpl.
  split; [now apply indexOf_at_index | reflexivity].
Qed.

(** X9.  In a wizard whose steps are distinct, [nextStep] moves the
    current step one position forward and stays put on the last step;
    [previousStep] moves it one position back and stays put on the first;
    neither touches the list of steps. *)
Theorem step_positions (st : ScanState) :
  NoDup (steps st) -> In (currentStep st) (steps st) ->
  position (nextStep st)
  = Z.min (position st + 1) (Z.of_nat (List.length (steps st)) - 1)
  /\ position (previousStep st) = Z.max (position st - 1) 0
  /\ steps (nextStep st) = steps st
  /\ steps (previousStep st) = steps st.
Proof.
  intros Hnd Hin.
  pose proof (indexOf_range (steps st) (currentStep st)) as Hr.
  pose proof (proj1 (indexOf_In _ _) Hin) as Hge.
  fold (position st) in Hr, Hge.
  unfold nextStep, previousStep. fold (position st).
  destruct (Z.ltb_spec (position st) (Z.of_nat (List.length (steps st)) - 1)) as [Hlt|Hlast];
    destruct (Z.ltb_spec 0 (position st)) as [Hpos|Hfirst].
  - destruct (position_goTo st (position st + 1) Hnd) as [-> ->]; [lia|].
    destruct (position_goTo st (position st - 1) Hnd) as [-> ->]; [lia|].
    repeat split; lia.
  - destruct (position_goTo st (position st + 1) Hnd) as [-> ->]; [lia|].
    repeat split; lia.
  - destruct (position_goTo st (position st - 1) Hnd) as [-> ->]; [lia|].
    repeat split; lia.
  - repeat split; lia.
Qed.

Lemma step_positions_witness :
  position (nextStep initialState) = 1 /\ position (previousStep initialState) = 0.
Proof.
  pose proof (step_positions initialState) as H.
  destruct H as [Hn [Hp _]].
  - repeat constructor; simpl; intuition discriminate.
  - simpl. tauto.
  - split; [exact Hn | exact Hp].
Defined.

(** X10.  In a wizard whose steps are distinct, going forward and then
    back returns to the same store, unless the wizard is on its last step;
    going back and then forward does, unless it is on its first. *)
Theorem next_previous_round_trip (st : ScanState) :
  NoDup (steps st) -> In (currentStep st) (steps st) ->
  (position st < Z.of_nat (List.length (steps st)) - 1 ->
   previousStep (nextStep st) = st)
  /\ (0 < position st -> nextStep (previousStep st) = st).
Proof.
  intros Hnd Hin.
  pose proof (indexOf_range (steps st) (currentStep st)) as Hr.
  pose proof (proj1 (indexOf_In _ _) Hin) as Hge.
  fold (position st) in Hr, Hge.
  pose proof (at_index_indexOf _ _ Hin) as Hcur. fold (position st) in Hcur.
  split; intros Hpos.
  - unfold nextStep. fold (position st).
    destruct (Z.ltb_spec (position st) (Z.of_nat (List.length (steps st)) - 1)); [|lia].
    destruct (position_goTo st (position st + 1) Hnd) as [Hp Hs]; [lia|].
    unfold previousStep. fold (position (goTo (position st + 1) st)).
    rewrite Hp.
    destruct (Z.ltb_spec 0 (position st + 1)); [|lia].
    replace (position st + 1 - 1) with (position st) by lia.
    unfold goTo at 1. rewrite Hs, Hcur.
    unfold goTo. destruct (at_index (steps st) (position st + 1));
      exact (setStep_current st).
  - unfold previousStep. fold (position st).
    destruct (Z.ltb_spec 0 (position st)); [|lia].
    destruct (position_goTo st (position st - 1) Hnd) as [Hp Hs]; [lia|].
    unfold nextStep. fold (position (goTo (position st - 1) st)).
    rewrite Hp, Hs.
    destruct (Z.ltb_spec (position st - 1) (Z.of_nat (List.length (steps st)) - 1)); [|lia].
    replace (position st - 1 + 1) with (position st) by lia.
    unfold goTo at 1. rewrite Hs, Hcur.
    unfold goTo. destruct (at_index (steps st) (position st - 1));
      exact (setStep_current st).
Qed.

Lemma next_previous_round_trip_witness :
  previousStep (nextStep initialState) = initialState.
Proof.
  refine (proj1 (next_previous_round_trip initialState _ _) _).
  - repeat constructor; simpl; intuition discriminate.
  - simpl. tauto.
  - reflexivity.
Defined.

Lemma act_steps st a : steps (act st a) = steps st.
Proof.
  destruct a; simpl; try reflexivity.
  - unfold nextStep. destruct (_ <? _); [|reflexivity].
    unfold goTo. now destruct (at_index _ _).
  - unfold previousStep. destruct (_ <? _); [|reflexivity].
    unfold goTo. now destruct (at_index _ _).
Qed.

(** X11.  Whatever the user does, the list of steps of the wizard stays
    the initial one; from any store so reached, six presses of next end on
    the results step and six presses of previous on the welcome step, and a
    reset leads to the welcome step. *)
Theorem wizard_ends (actions : list Action) :
  steps (fold_left act actions initialState) = steps initialState
  /\ currentStep (Nat.iter 6 nextStep (fold_left act actions initialState)) = results
  /\ currentStep (Nat.iter 6 previousStep (fold_left act actions initialState)) = welcome
  /\ currentStep (reset (fold_left act actions initialState)) = welcome.
Proof.
  assert (Hgen : forall st, steps (fold_left act actions st) = steps st).
  { induction actions as [|a actions IH]; intros st; simpl.
    - reflexivity.
    - rewrite IH. apply act_steps. }
  pose proof (Hgen initialState) as Hsteps. clear Hgen.
  split; [exact Hsteps|].
  destruct (fold_left act actions initialState) as [cur stps ? ? ? ? ? ? ? ? ? ? ? ? ?].
  simpl in Hsteps. subst stps.
  destruct cur; repeat split; reflexivity.
Qed.

End StoreProofs.

(** * Properties of the Pattern Factory client *)

Module ApiProofs.
Import JS PatternFactoryApi.
Open Scope string_scope.
Open Scope list_scope.

Lemma get_removeItem_same k (s : Storage) : get k (removeItem k s) = None.
Proof.
  unfold removeItem. induction s as [|[k' v] s IH]; simpl; [reflexivity|].
  destruct (String.eqb_spec k k') as [->|Hne]; simpl; [exact IH|].
  destruct (String.eqb_spec k k'); [contradiction | exact IH].
Qed.

Lemma get_removeItem_other k k' (s : Storage) :
  k <> k' -> get k' (removeItem k s) = get k' s.
Proof.
  intros Hne. unfold removeItem. induction s as [|[k0 v] s IH]; simpl; [reflexivity|].
  destruct (String.eqb_spec k k0) as [->|Hk]; simpl.
  - destruct (String.eqb_spec k' k0); [congruence | exact IH].
  - destruct (String.eqb_spec k' k0); [reflexivity | exact IH].
Qed.

Lemma in_step_load storage : in_step (load storage).
Proof. split; reflexivity. Qed.

Lemma in_step_event a ev : in_step a -> in_step (on_event a ev).
Proof.
  intros [Ha Hr]. destruct ev as [access refresh| |access|]; split; simpl.
  - rewrite MappingProofs.get_set_other by discriminate.
    now rewrite MappingProofs.get_set_same.
  - now rewrite MappingProofs.get_set_same.
  - rewrite get_removeItem_other by discriminate.
    now rewrite get_removeItem_same.
  - now rewrite get_removeItem_same.
  - now rewrite MappingProofs.get_set_same.
  - rewrite MappingProofs.get_set_other by discriminate. exact Hr.
  - rewrite get_removeItem_other by discriminate.
    now rewrite get_removeItem_same.
  - now rewrite get_removeItem_same.
Qed.

Lemma in_step_events evs : forall a, in_step a -> in_step (fold_left on_event evs a).
Proof.
  induction evs as [|ev evs IH]; intros a Ha; simpl; [exact Ha|].
  apply IH. now apply in_step_event.
Qed.

(** X12.  Whatever the storage held when the module was loaded and
    whatever logins, logouts and token refreshes followed, the tokens in
    memory are the stored ones: loading the module again from the storage
    gives the same state. *)
Theorem tokens_in_step (storage : Storage) (evs : list AuthEvent) :
  load (localStorage (fold_left on_event evs (load storage)))
  = fold_left on_event evs (load storage).
Proof.
  pose proof (in_step_events evs (load storage) (in_step_load storage)) as [Ha Hr].
  destruct (fold_left on_event evs (load storage)) as [acc ref st].
  simpl in *. unfold load. now rewrite <- Ha, <- Hr.
Qed.

(** X13.  After a logout, and after a refresh that failed, the client is
    not authenticated, adds no [Authorization] header and has both tokens
    gone from the storage; and at any time a header is added exactly when
    [isAuthenticated] answers true. *)
Theorem logged_out (a : Auth) :
  isAuthenticated (logout a) = false
  /\ authorization (refresh_failed a) = None
  /\ get "access_token" (localStorage (logout a)) = None
  /\ get "refresh_token" (localStorage (logout a)) = None
  /\ (isAuthenticated a = true <-> exists h, authorization a = Some h).
Proof.
  repeat split.
  - simpl. rewrite get_removeItem_other by discriminate. apply get_removeItem_same.
  - simpl. apply get_removeItem_same.
  - unfold isAuthenticated, authorization.
    destruct (accessToken a) as [t|]; [|discriminate].
    intros ->. eauto.
  - unfold isAuthenticated, authorization.
    destruct (accessToken a) as [t|]; [|intros [h [=]]].
    destruct (truthy_string t); [reflexivity | intros [h [=]]].
Qed.

(** *** pollForFiles *)

Lemma poll_inconclusive pre :
  forall rest,
    forallb inconclusive pre = true ->
    pollForFiles (pre ++ rest)
    = (fst (pollForFiles rest), answers pre ++ snd (pollForFiles rest)).
Proof.
  induction pre as [|r pre IH]; intros rest Hpre; simpl.
  - now destruct (pollForFiles rest).
  - simpl in Hpre. apply andb_prop in Hpre. destruct Hpre as [Hr Hpre].
    destruct r as [s|err]; [|discriminate]. simpl in Hr.
    apply andb_prop in Hr. destruct Hr as [Hplt Herr].
    apply negb_true_iff in Hplt, Herr. rewrite Hplt, Herr.
    rewrite (IH rest Hpre). reflexivity.
Qed.

(** X14.  [pollForFiles] keeps checking while the replies are
    inconclusive and settles on the first one that is not, whatever would
    have come after it: it resolves on an answer with the PLT file
    available, even one with status error, rejects on another answer with
    status error and on a failed request; every status received, the
    settling one included, has been handed to [onProgress] in order.  On
    inconclusive replies alone it is still waiting. *)
Theorem pollForFiles_settles (pre : list Reply) (r : Reply) (post : list Reply) :
  forallb inconclusive pre = true -> inconclusive r = false ->
  pollForFiles (pre ++ r :: post)
  = (match r with
     | Answer s => if plt s then Resolved else Rejected "Order processing failed"
     | Failure err => Rejected err
     end,
     answers (pre ++ [r]))
  /\ pollForFiles pre = (Waiting, answers pre).
Proof.
  intros Hpre Hr. split.
  - rewrite (poll_inconclusive pre (r :: post) Hpre).
    unfold answers. rewrite flat_map_app. fold (answers pre). simpl.
    destruct r as [s|err]; simpl; [|reflexivity].
    simpl in Hr. destruct (plt s); [reflexivity|].
    destruct (String.eqb (status s) "error"); [reflexivity | discriminate].
  - rewrite <- (app_nil_r pre) at 1.
    rewrite (poll_inconclusive pre [] Hpre). simpl. now rewrite app_nil_r.
Qed.

Lemma pollForFiles_settles_witness :
  pollForFiles [Answer (mkStatus "processing" false false false);
                Answer (mkStatus "error" true true true);
                Failure "network"]
  = (Resolved, [mkStatus "processing" false false false;
                mkStatus "error" true true true]).
Proof.
  refine (proj1 (pollForFiles_settles
                   [Answer (mkStatus "processing" false false false)]
                   (Answer (mkStatus "error" true true true))
                   [Failure "network"] _ _)); reflexivity.
Defined.

End ApiProofs.
